(** * Federation transport server: authentication and servlet dispatch

    A shallow embedding of [synapse/federation/transport/server/_base.py]:
    the [X-Matrix] header parser, [Authenticator.__init__],
    [Authenticator.authenticate_request],
    [Authenticator.reset_retry_timings], the request pipeline built by
    [BaseFederationServlet._wrap] and [BaseFederationServlet.register]. *)

From Stdlib Require Import NArith ZArith List String Ascii Strings.Byte.
From stdpp Require Import base option list gmap strings.

#[local] Set Warnings "-register-all".

Local Open Scope Z_scope.

(** ** Python values *)

(** A Python [str] is a sequence of Unicode code points, a [bytes] object a
    sequence of octets. *)
Abbreviation str := (list N).
Abbreviation bytes := (list byte).

(** [text "abc"] is the [str] literal ['abc'], [octets "abc"] the [bytes]
    literal [b'abc'] (ASCII literals only). *)
Definition text (s : string) : str := N_of_ascii <$> list_ascii_of_string s.
Definition octets (s : string) : bytes := list_byte_of_string s.
Arguments text : simpl never.
Arguments octets : simpl never.

Module HTTPStatus.
Definition BAD_REQUEST : Z := 400.
Definition UNAUTHORIZED : Z := 401.
End HTTPStatus.

Module Codes.
Inductive t := UNAUTHORIZED.
End Codes.

(** Exceptions.  [NoAuthenticationError] is a subclass of
    [AuthenticationError]; both take the arguments of [SynapseError].
    [FederationDeniedError] comes from [synapse.api.errors].  The built-in
    kinds are those the header parser can run into; [Exception] is the plain
    exception of [register], [re_error] what [re.compile] raises;
    [ExternalError] stands for whatever a collaborator raises. *)
Inductive exn :=
| AuthenticationError (code : Z) (msg : string) (errcode : Codes.t)
| NoAuthenticationError (code : Z) (msg : string) (errcode : Codes.t)
| FederationDeniedError (destination : option str)
| UnicodeDecodeError
| IndexError
| ValueError
| KeyError (key : str)
| Exception (msg : string)
| re_error
| ExternalError (tag : N).

Inductive result (A : Type) :=
| Ok (a : A)
| Raise (e : exn).
Arguments Ok {A} a.
Arguments Raise {A} e.

#[global] Instance result_ret : MRet result := @Ok.
#[global] Instance result_fmap : FMap result := fun A B f m =>
  match m with
  | Ok a => Ok (f a)
  | Raise e => Raise e
  end.
#[global] Instance result_bind : MBind result := fun A B f m =>
  match m with
  | Ok a => f a
  | Raise e => Raise e
  end.

(** [except NoAuthenticationError] matches that class only. *)
Definition is_NoAuthenticationError (e : exn) : bool :=
  match e with
  | NoAuthenticationError _ _ _ => true
  | _ => false
  end.

(** ** String and bytes primitives *)

#[global] Instance byte_eq_decision : EqDecision byte := Byte.byte_eq_dec.

Definition SPACE : N := 32.
Definition QUOTE : N := 34.
Definition COMMA : N := 44.
Definition EQUALS : N := 61.
Definition BACKSLASH : N := 92.
Definition NEWLINE : N := 10.

(** [b.decode("ascii")]: every octet below 128, else [UnicodeDecodeError]. *)
Fixpoint decode_ascii (bs : bytes) : result str :=
  match bs with
  | [] => Ok []
  | b :: r =>
      let n := Byte.to_N b in
      if (n <? 128)%N then cons n <$> decode_ascii r else Raise UnicodeDecodeError
  end.

Definition is_continuation (b : byte) : bool :=
  let n := Byte.to_N b in ((128 <=? n) && (n <=? 191))%N.

Definition payload (b : byte) : N := N.land (Byte.to_N b) 63.

(** [b.decode("utf-8")]: strict decoding; overlong forms, surrogates and
    code points above U+10FFFF are refused. *)
Fixpoint decode_utf8 (bs : bytes) : result str :=
  match bs with
  | [] => Ok []
  | b0 :: r0 =>
      let n0 := Byte.to_N b0 in
      if (n0 <? 128)%N then cons n0 <$> decode_utf8 r0
      else if ((194 <=? n0) && (n0 <=? 223))%N then
        match r0 with
        | b1 :: r1 =>
            if is_continuation b1
            then cons (N.land n0 31 * 64 + payload b1)%N <$> decode_utf8 r1
            else Raise UnicodeDecodeError
        | _ => Raise UnicodeDecodeError
        end
      else if ((224 <=? n0) && (n0 <=? 239))%N then
        match r0 with
        | b1 :: b2 :: r2 =>
            let c := ((N.land n0 15 * 64 + payload b1) * 64 + payload b2)%N in
            if is_continuation b1 && is_continuation b2
               && (2048 <=? c)%N && negb ((55296 <=? c) && (c <=? 57343))%N
            then cons c <$> decode_utf8 r2
            else Raise UnicodeDecodeError
        | _ => Raise UnicodeDecodeError
        end
      else if ((240 <=? n0) && (n0 <=? 244))%N then
        match r0 with
        | b1 :: b2 :: b3 :: r3 =>
            let c := (((N.land n0 7 * 64 + payload b1) * 64 + payload b2) * 64
                      + payload b3)%N in
            if is_continuation b1 && is_continuation b2 && is_continuation b3
               && (65536 <=? c)%N && (c <=? 1114111)%N
            then cons c <$> decode_utf8 r3
            else Raise UnicodeDecodeError
        | _ => Raise UnicodeDecodeError
        end
      else Raise UnicodeDecodeError
  end.

(** [b.startswith(prefix)] on bytes. *)
Fixpoint startswith (prefix bs : bytes) : bool :=
  match prefix, bs with
  | [], _ => true
  | p :: ps, b :: r => if Byte.eqb p b then startswith ps r else false
  | _ :: _, [] => false
  end.

(** [re.split(" +", s)]: the pieces between maximal runs of spaces. *)
Fixpoint re_split_spaces (s : str) : list str :=
  match s with
  | [] => [[]]
  | c :: r =>
      if (c =? SPACE)%N then
        match r with
        | c' :: _ => if (c' =? SPACE)%N then re_split_spaces r
                     else [] :: re_split_spaces r
        | [] => [] :: re_split_spaces r
        end
      else
        match re_split_spaces r with
        | p :: ps => (c :: p) :: ps
        | [] => [[c]]
        end
  end.

(** [s.split(sep)] for a one-character separator. *)
Fixpoint split (sep : N) (s : str) : list str :=
  match s with
  | [] => [[]]
  | c :: r =>
      if (c =? sep)%N then [] :: split sep r
      else
        match split sep r with
        | p :: ps => (c :: p) :: ps
        | [] => [[c]]
        end
  end.

(** [k, v = param.split("=", maxsplit=1)]: the text before and after the
    first [=]; unpacking a one-element list raises [ValueError]. *)
Fixpoint split_once (sep : N) (s : str) : option (str * str) :=
  match s with
  | [] => None
  | c :: r =>
      if (c =? sep)%N then Some ([], r)
      else '(k, v) ← split_once sep r; Some (c :: k, v)
  end.

Definition unpack_key_value (param : str) : result (str * str) :=
  match split_once EQUALS param with
  | Some kv => Ok kv
  | None => Raise ValueError
  end.

(** [value[1:-1]] *)
Definition slice_1_m1 (value : str) : str := removelast (tail value).

(** [re.sub("\\\\(.)", lambda matchobj: matchobj.group(1), s)]: leftmost
    non-overlapping matches of a backslash followed by any character but a
    newline are replaced by that character. *)
Fixpoint unescape (s : str) : str :=
  match s with
  | [] => []
  | c :: r =>
      if (c =? BACKSLASH)%N then
        match r with
        | d :: r' => if (d =? NEWLINE)%N then c :: unescape r else d :: unescape r'
        | [] => [c]
        end
      else c :: unescape r
  end.

Definition strip_quotes (value : str) : str :=
  match value with
  | c :: _ => if (c =? QUOTE)%N then unescape (slice_1_m1 value) else value
  | [] => value
  end.

Definition is_ascii (c : N) : bool := (c <? 128)%N.

Definition ascii_lower (c : N) : N :=
  if ((65 <=? c) && (c <=? 90))%N then (c + 32)%N else c.

(** Functions the module imports whose code is not among the sources. *)
Class Imports := {
  (** [synapse.util.stringutils.parse_and_validate_server_name]; only
      whether it raises matters here, its value is dropped. *)
  parse_and_validate_server_name : str → result unit;
  (** [str.lower] on a string holding a non-ASCII code point (the Unicode
      case mapping). *)
  unicode_lower : str → str;
  (** [re.compile] accepts the pattern. *)
  re_valid : str → bool;
}.

Section parser.
Context `{Imports}.

(** [k.lower()] *)
Definition lower (k : str) : str :=
  if forallb is_ascii k then ascii_lower <$> k else unicode_lower k.

(** The dict comprehension: later parameters override earlier ones. *)
Definition param_dict_of (pairs : list (str * str)) : gmap str str :=
  foldl (fun d kv => <[lower kv.1 := kv.2]> d) ∅ pairs.

(** [param_dict[k]] *)
Definition getitem (d : gmap str str) (k : str) : result str :=
  match d !! k with
  | Some v => Ok v
  | None => Raise (KeyError k)
  end.

(** The first statements of the [try] block: decode, take the text after
    the scheme, split it into parameters and build [param_dict]. *)
Definition header_params (header_bytes : bytes) : result (gmap str str) :=
  header_str ← decode_utf8 header_bytes;
  params ← match re_split_spaces header_str !! 1%nat with
           | Some p => Ok (split COMMA p)
           | None => Raise IndexError
           end;
  pairs ← mapM unpack_key_value params;
  Ok (param_dict_of pairs).

(** The body of the [try] block of [_parse_auth_header]. *)
Definition parse_auth_header_body (header_bytes : bytes)
  : result (str * str * str * option str) :=
  param_dict ← header_params header_bytes;
  origin ← strip_quotes <$> getitem param_dict (text "origin");
  _ ← parse_and_validate_server_name origin;
  key ← strip_quotes <$> getitem param_dict (text "key");
  sig ← strip_quotes <$> getitem param_dict (text "sig");
  let destination := strip_quotes <$> param_dict !! text "destination" in
  Ok (origin, key, sig, destination).

Definition malformed_header : exn :=
  AuthenticationError HTTPStatus.BAD_REQUEST
    "Malformed Authorization header" Codes.UNAUTHORIZED.

Definition _parse_auth_header (header_bytes : bytes)
  : result (str * str * str * option str) :=
  match parse_auth_header_body header_bytes with
  | Ok r => Ok r
  | Raise _ => Raise malformed_header
  end.
End parser.

(** ** Requests, collaborators and effects *)

(** Decoded JSON values; the pipeline only passes them on. *)
Inductive json :=
| JNull
| JBool (b : bool)
| JNumber (z : Z)
| JString (s : str)
| JArray (items : list json)
| JObject (members : list (str * json)).

Abbreviation JsonDict := (list (str * json)).

(** The part of a Twisted request the module reads. *)
Record SynapseRequest := {
  method : bytes;
  uri : bytes;
  (** [requestHeaders.getRawHeaders(b"Authorization")] *)
  authorization : option (list bytes);
  args : list (bytes * list bytes);
  body : bytes;
}.

(** The dict handed to the keyring. *)
Record JsonRequest := {
  jr_method : str;
  jr_uri : str;
  jr_destination : str;
  jr_signatures : gmap str (gmap str str);
  jr_content : option JsonDict;
  jr_origin : option str;
}.

Record DestinationRetryTimings := {
  failure_ts : option Z;
  retry_last_ts : Z;
  retry_interval : Z;
}.

Inductive SpanContext :=
| RemoteContext (id : N)
| ActiveContext
| ContextOf (name : string).

(** What [start_active_span] and [create_non_recording_span] return. *)
Inductive span :=
| Span (name : string) (context : option SpanContext) (links : list SpanContext)
| NonRecordingSpan.

Definition get_span_context (s : span) : SpanContext :=
  match s with
  | Span name _ _ => ContextOf name
  | NonRecordingSpan => ContextOf "non-recording"
  end.

Definition is_recording (s : span) : bool :=
  match s with
  | Span _ _ _ => true
  | NonRecordingSpan => false
  end.

Inductive task :=
| ResetRetryTimings (origin : str).

(** Calls that leave the module, in the order they happen. *)
Inductive event :=
| VerifyJsonForServer (origin : str) (json_request : JsonRequest) (now : Z)
| GetDestinationRetryTimings (origin : str)
| SetDestinationRetryTimings (origin : str) (failure_ts : option Z)
    (retry_last_ts retry_interval : Z)
| NotifyRemoteServerUp (origin : str)
| SendRemoteServerUp (origin : str)
| RunInBackground (t : task)
| SetAttribute (key value : str)
| SpanEnter (s : span)
| SpanExit (s : span)
| RatelimitEnter (origin : str)
| RatelimitWait (origin : str)
| RatelimitExit (origin : str)
| CallHandler (origin : option str) (content : option JsonDict)
    (query : list (bytes * list bytes)) (kwargs : list (str * str)).

(** The collaborators of a home server.  [World] is their joint state; each
    call may change it and may raise. *)
Class HomeServer (World : Type) := {
  time_msec : World → Z;
  verify_json_for_server : str → JsonRequest → Z → World → result unit * World;
  get_destination_retry_timings :
    str → World → result (option DestinationRetryTimings) * World;
  set_destination_retry_timings :
    str → option Z → Z → Z → World → result unit * World;
  notify_remote_server_up : str → World → result unit * World;
  send_remote_server_up : str → World → result unit * World;
  parse_json_object_from_request : SynapseRequest → result JsonDict;
  whitelisted_homeserver : str → bool;
  span_context_from_request : SynapseRequest → option N;
  (** [ratelimiter.ratelimit(origin)]: entering the context manager, the
      deferred it yields, and leaving it. *)
  ratelimit_enter : str → World → result unit * World;
  ratelimit_wait : str → World → result unit * World;
  ratelimit_exit : str → World → World;
  (** [request._disconnected], set by the transport when the peer is gone. *)
  request_disconnected : World → bool;
  (** Modelled from the spec: [synapse.logging.context.run_in_background] is
      not among the sources.  The task is a fire-and-forget background task
      whose completion order relative to the response is unspecified: it
      either runs before the caller resumes, its outcome dropped, or it is
      left to the reactor. *)
  background_runs_first : World → bool;
}.

Record Authenticator := {
  server_name : str;
  federation_domain_whitelist : option (list str);
  (** [self.replication_client] is set on workers only *)
  replication_client : bool;
}.

Section effects.
Context {World : Type}.

Record state := {
  world : World;
  (** [request.requester] *)
  requester : option str;
  trace : list event;
  (** tasks handed to the reactor and not yet run *)
  background : list task;
}.

Definition M (A : Type) : Type := state → result A * state.

Definition ret {A} (a : A) : M A := fun st => (Ok a, st).
Definition raise {A} (e : exn) : M A := fun st => (Raise e, st).
Definition bind {A B} (m : M A) (k : A → M B) : M B := fun st =>
  match m st with
  | (Ok a, st') => k a st'
  | (Raise e, st') => (Raise e, st')
  end.

Definition lift {A} (r : result A) : M A := fun st => (r, st).

(** The state once [e] has happened. *)
Definition push (e : event) (st : state) : state :=
  {| world := world st; requester := requester st;
     trace := trace st ++ [e]; background := background st |}.

Definition log (e : event) : M unit := fun st => (Ok tt, push e st).

(** A call to a collaborator. *)
Definition call {A} (f : World → result A * World) : M A := fun st =>
  let '(r, w) := f (world st) in
  (r, {| world := w; requester := requester st;
         trace := trace st; background := background st |}).

Definition read {A} (f : World → A) : M A := fun st => (Ok (f (world st)), st).

(** [try: m except Exception as e: handler(e)] *)
Definition try_except {A} (m : M A) (handler : exn → M A) : M A := fun st =>
  match m st with
  | (Ok a, st') => (Ok a, st')
  | (Raise e, st') => handler e st'
  end.

(** [try: m finally: cleanup] *)
Definition finally {A} (m : M A) (cleanup : M unit) : M A := fun st =>
  let '(r, st') := m st in
  match cleanup st' with
  | (Ok _, st'') => (r, st'')
  | (Raise e, st'') => (Raise e, st'')
  end.
End effects.

Arguments state : clear implicits.
Arguments M : clear implicits.

#[global] Instance M_ret {World} : MRet (M World) := @ret World.
#[global] Instance M_bind {World} : MBind (M World) :=
  fun A B k m => bind m k.
#[global] Instance M_fmap {World} : FMap (M World) :=
  fun A B f m => bind m (fun a => ret (f a)).

(** ** The authenticator *)

Definition missing_authorization : exn :=
  NoAuthenticationError HTTPStatus.UNAUTHORIZED
    "Missing Authorization headers" Codes.UNAUTHORIZED.

Definition destination_mismatch : exn :=
  AuthenticationError HTTPStatus.UNAUTHORIZED
    "Destination mismatch in auth header" Codes.UNAUTHORIZED.

(** [json_request["origin"] = origin] and
    [json_request["signatures"].setdefault(origin, {})[key] = sig] *)
Definition add_signature (origin key sig : str) (jr : JsonRequest) : JsonRequest :=
  {| jr_method := jr_method jr;
     jr_uri := jr_uri jr;
     jr_destination := jr_destination jr;
     jr_signatures :=
       <[origin := <[key := sig]> (default ∅ (jr_signatures jr !! origin))]>
         (jr_signatures jr);
     jr_content := jr_content jr;
     jr_origin := Some origin |}.

(** [origin not in whitelist], where [origin] may still be [None]. *)
Definition not_in_whitelist (origin : option str) (whitelist : list str) : bool :=
  match origin with
  | Some o => bool_decide (o ∉ whitelist)
  | None => true
  end.

Section authenticator.
Context `{Imports} {World : Type} `{HomeServer World}.
Variable self : Authenticator.

(** One turn of the loop over the [Authorization] headers. *)
Definition auth_header_step (acc : option str * JsonRequest) (auth : bytes)
  : result (option str * JsonRequest) :=
  if startswith (octets "X-Matrix") auth then
    '(origin, key, sig, destination) ← _parse_auth_header auth;
    let json_request := add_signature origin key sig acc.2 in
    match destination with
    | Some d =>
        if bool_decide (d ≠ server_name self) then Raise destination_mismatch
        else Ok (Some origin, json_request)
    | None => Ok (Some origin, json_request)
    end
  else Ok acc.

Fixpoint auth_header_loop (auth_headers : list bytes)
    (acc : option str * JsonRequest) : result (option str * JsonRequest) :=
  match auth_headers with
  | [] => Ok acc
  | auth :: rest => acc' ← auth_header_step acc auth; auth_header_loop rest acc'
  end.

Definition reset_retry_timings (origin : str) : M World unit :=
  try_except
    (log (SetDestinationRetryTimings origin None 0 0);;
     call (set_destination_retry_timings origin None 0 0);;
     log (NotifyRemoteServerUp origin);;
     call (notify_remote_server_up origin);;
     if replication_client self then
       log (SendRemoteServerUp origin);;
       call (send_remote_server_up origin)
     else mret tt)
    (fun _ => mret tt).

Definition run_task (t : task) : M World unit :=
  match t with
  | ResetRetryTimings origin => reset_retry_timings origin
  end.

Definition spawn (t : task) : M World unit := fun st =>
  (Ok tt, {| world := world st; requester := requester st;
             trace := trace st; background := background st ++ [t] |}).

(** [run_in_background(f, *args)]: the caller never sees the outcome. *)
Definition run_in_background (t : task) : M World unit :=
  log (RunInBackground t);;
  runs_first ← read background_runs_first;
  if runs_first : bool then try_except (run_task t) (fun _ => mret tt)
  else spawn t.

Definition set_requester (origin : str) : M World unit := fun st =>
  (Ok tt, {| world := world st; requester := Some origin;
             trace := trace st; background := background st |}).

(** [json_request] as first built, before the headers are read. *)
Definition initial_json_request (method_str uri_str : str)
    (content : option JsonDict) : JsonRequest :=
  {| jr_method := method_str; jr_uri := uri_str;
     jr_destination := server_name self; jr_signatures := ∅;
     jr_content := content; jr_origin := None |}.

Definition authenticate_request (request : SynapseRequest)
    (content : option JsonDict) : M World str :=
  now ← read time_msec;
  method_str ← lift (decode_ascii (method request));
  uri_str ← lift (decode_ascii (uri request));
  let json_request := initial_json_request method_str uri_str content in
  match authorization request with
  | None | Some [] => raise missing_authorization
  | Some auth_headers =>
      '(origin, json_request) ←
        lift (auth_header_loop auth_headers (None, json_request));
      if match federation_domain_whitelist self with
         | Some whitelist => not_in_whitelist origin whitelist
         | None => false
         end
      then raise (FederationDeniedError origin)
      else
        match origin with
        | None => raise missing_authorization
        | Some origin =>
            if bool_decide (jr_signatures json_request = ∅)
            then raise missing_authorization
            else
              log (VerifyJsonForServer origin json_request now);;
              call (verify_json_for_server origin json_request now);;
              set_requester origin;;
              log (GetDestinationRetryTimings origin);;
              retry_timings ← call (get_destination_retry_timings origin);
              match retry_timings with
              | Some timings =>
                  if bool_decide (retry_last_ts timings ≠ 0)
                  then run_in_background (ResetRetryTimings origin)
                  else mret tt
              | None => mret tt
              end;;
              mret origin
        end
  end.
End authenticator.

(** ** Servlets *)

(** A compiled pattern remembers its source ([pattern.pattern]). *)
Inductive Pattern :=
| Compiled (source : str).

Definition re_compile `{Imports} (source : str) : result Pattern :=
  if re_valid source then Ok (Compiled source) else Raise re_error.

(** Python truthiness of an [Optional[str]], and [str(origin)]. *)
Definition truthy (origin : option str) : bool :=
  match origin with
  | Some (_ :: _) => true
  | _ => false
  end.

Definition str_of (origin : option str) : str :=
  match origin with
  | Some o => o
  | None => text "None"
  end.

Section servlet.
Context `{Imports} {World : Type} `{HomeServer World}.

Abbreviation Response := (option (Z * json)).

(** An [on_GET], [on_PUT] or [on_POST] method; [cancellable] is what
    [is_method_cancellable] reads. *)
Record Handler := {
  run_handler :
    option str → option JsonDict → list (bytes * list bytes) →
    list (str * str) → World → result Response * World;
  cancellable : bool;
}.

Record BaseFederationServlet := {
  class_name : string;
  PATH : str;
  PREFIX : str;
  REQUIRE_AUTH : bool;
  RATELIMIT : bool;
  authenticator : Authenticator;
  on_GET : option Handler;
  on_PUT : option Handler;
  on_POST : option Handler;
}.

(** [with s: body] for a span. *)
Definition with_span {A} (s : span) (body : M World A) : M World A :=
  log (SpanEnter s);;
  finally body (log (SpanExit s)).

(** [with ratelimiter.ratelimit(origin) as d: body] *)
Definition with_ratelimit {A} (origin : str) (body : M World A) : M World A :=
  log (RatelimitEnter origin);;
  call (ratelimit_enter origin);;
  finally body
    (log (RatelimitExit origin);;
     call (fun w => (Ok tt, ratelimit_exit origin w))).

(** [await func(origin, content, request.args, *args, **kwargs)] *)
Definition invoke (func : Handler) (origin : option str)
    (content : option JsonDict) (request : SynapseRequest)
    (kwargs : list (str * str)) : M World Response :=
  log (CallHandler origin content (args request) kwargs);;
  call (run_handler func origin content (args request) kwargs).

Definition authenticate_span : span := Span "authenticate_request" None [].

(** The span context taken from the request, for a whitelisted origin. *)
Definition origin_span_context (request : SynapseRequest)
    (origin : option str) : option N :=
  match origin with
  | Some o =>
      if truthy origin && whitelisted_homeserver o
      then span_context_from_request request
      else None
  | None => None
  end.

Definition remote_parent_span (request : SynapseRequest)
    (origin : option str) : span :=
  match origin_span_context request origin with
  | Some context =>
      Span "incoming-federation-request" (Some (RemoteContext context))
        [ActiveContext]
  | None => NonRecordingSpan
  end.

Definition local_parent_span (request : SynapseRequest)
    (origin : option str) : span :=
  match origin_span_context request origin with
  | Some _ =>
      Span "process-federation-request" None
        [get_span_context (remote_parent_span request origin)]
  | None => Span "process-federation-request" None []
  end.

(** First part of the callback: the body is decoded and the request
    authenticated. *)
Definition authenticate_stage (self : BaseFederationServlet)
    (request : SynapseRequest) : M World (option JsonDict * option str) :=
  content ←
    (if bool_decide (method request ∈ [octets "PUT"; octets "POST"])
     then Some <$> lift (parse_json_object_from_request request)
     else mret None);
  origin ←
    try_except
      (with_span authenticate_span
         (Some <$> authenticate_request (authenticator self) request content))
      (fun e =>
         if is_NoAuthenticationError e then
           if REQUIRE_AUTH self then raise e else mret None
         else raise e);
  mret (content, origin).

(** The block under [with remote_parent_span, local_parent_span]. *)
Definition handler_stage (self : BaseFederationServlet) (func : Handler)
    (request : SynapseRequest) (kwargs : list (str * str))
    (content : option JsonDict) (origin : option str) : M World Response :=
  match origin with
  | Some o =>
      if truthy origin && RATELIMIT self then
        with_ratelimit o
          (log (RatelimitWait o);;
           call (ratelimit_wait o);;
           disconnected ← read request_disconnected;
           if disconnected : bool then mret None
           else invoke func origin content request kwargs)
      else invoke func origin content request kwargs
  | None => invoke func origin content request kwargs
  end.

(** The callback [_wrap] builds around [func]. *)
Definition new_func (self : BaseFederationServlet) (func : Handler)
    (request : SynapseRequest) (kwargs : list (str * str))
  : M World Response :=
  '(content, origin) ← authenticate_stage self request;
  log (SetAttribute (text "authenticated_entity") (str_of origin));;
  with_span (remote_parent_span request origin)
    (with_span (local_parent_span request origin)
       (handler_stage self func request kwargs content origin)).

Definition ServletCallback : Type :=
  SynapseRequest → list (str * str) → M World Response.

Definition _wrap (self : BaseFederationServlet) (func : Handler)
  : ServletCallback := new_func self func.

(** What [server.register_paths] is given. *)
Record route := {
  route_method : string;
  route_patterns : list Pattern;
  route_callback : ServletCallback;
  route_servlet_classname : string;
}.

(** [getattr(self, "on_%s" % method, None)] *)
Definition getattr_on (self : BaseFederationServlet) (method : string)
  : option Handler :=
  if String.eqb method "GET" then on_GET self
  else if String.eqb method "PUT" then on_PUT self
  else if String.eqb method "POST" then on_POST self
  else None.

Definition cancellable_message (self : BaseFederationServlet)
    (method : string) : string :=
  (class_name self +:+ ".on_" +:+ method
   +:+ " has been marked as cancellable, but federation servlets do not "
   +:+ "support cancellation yet.")%string.

Fixpoint register_methods (self : BaseFederationServlet) (pattern : Pattern)
    (methods : list string) (server : list route)
  : result unit * list route :=
  match methods with
  | [] => (Ok tt, server)
  | method :: rest =>
      match getattr_on self method with
      | None => register_methods self pattern rest server
      | Some code =>
          if cancellable code
          then (Raise (Exception (cancellable_message self method)), server)
          else
            register_methods self pattern rest
              (server ++ [{| route_method := method;
                             route_patterns := [pattern];
                             route_callback := _wrap self code;
                             route_servlet_classname := class_name self |}])
      end
  end.

Definition register (self : BaseFederationServlet) (server : list route)
  : result unit * list route :=
  match re_compile (text "^" ++ PREFIX self ++ PATH self ++ text "$") with
  | Ok pattern => register_methods self pattern ["GET"; "PUT"; "POST"]%string server
  | Raise e => (Raise e, server)
  end.
End servlet.

Arguments Handler : clear implicits.
Arguments BaseFederationServlet : clear implicits.
Arguments ServletCallback : clear implicits.
Arguments route : clear implicits.

(** ** Vocabulary of the properties *)

Definition is_keyring_call (e : event) : bool :=
  match e with
  | VerifyJsonForServer _ _ _ => true
  | _ => false
  end.

Definition is_handler_call (e : event) : bool :=
  match e with
  | CallHandler _ _ _ _ => true
  | _ => false
  end.

Definition is_span_event (e : event) : bool :=
  match e with
  | SpanEnter _ | SpanExit _ => true
  | _ => false
  end.

Definition keyring_calls (t : list event) : nat :=
  length (List.filter is_keyring_call t).

Definition handler_calls (t : list event) : nat :=
  length (List.filter is_handler_call t).

(** What [authenticate_request] and the repair task may leave in the trace. *)
Definition auth_event (e : event) : bool :=
  match e with
  | VerifyJsonForServer _ _ _ | GetDestinationRetryTimings _
  | SetDestinationRetryTimings _ _ _ _ | NotifyRemoteServerUp _
  | SendRemoteServerUp _ | RunInBackground _ => true
  | _ => false
  end.

(** What the block under the two spans may leave in the trace. *)
Definition handler_stage_event (e : event) : bool :=
  match e with
  | RatelimitEnter _ | RatelimitWait _ | RatelimitExit _
  | CallHandler _ _ _ _ => true
  | _ => false
  end.

(** [appends P m]: whatever [m] does, it only adds events satisfying [P] to
    the trace. *)
Definition appends {World A} (P : event → bool) (m : M World A) : Prop :=
  ∀ st r st', m st = (r, st') →
    ∃ events, trace st' = trace st ++ events ∧ Forall (fun e => P e = true) events.

Definition is_raise {A} (r : result A) : bool :=
  match r with
  | Ok _ => false
  | Raise _ => true
  end.

(** What the repair task is to do, step by step: write the zero retry
    state; if the write went through, notify; if the notification went
    through and there is a replication client, tell the master.  A step
    that raises ends the task.  [reset_events] is the calls made,
    [world_after_reset] the collaborators once they were made. *)
Definition reset_events {World} `{HomeServer World} (self : Authenticator)
    (origin : str) (w : World) : list event :=
  SetDestinationRetryTimings origin None 0 0 ::
  match set_destination_retry_timings origin None 0 0 w with
  | (Ok _, w1) =>
      NotifyRemoteServerUp origin ::
      match notify_remote_server_up origin w1 with
      | (Ok _, _) =>
          if replication_client self then [SendRemoteServerUp origin] else []
      | (Raise _, _) => []
      end
  | (Raise _, _) => []
  end.

Definition world_after_reset {World} `{HomeServer World} (self : Authenticator)
    (origin : str) (w : World) : World :=
  match set_destination_retry_timings origin None 0 0 w with
  | (Ok _, w1) =>
      match notify_remote_server_up origin w1 with
      | (Ok _, w2) =>
          if replication_client self then (send_remote_server_up origin w2).2
          else w2
      | (Raise _, w2) => w2
      end
  | (Raise _, w1) => w1
  end.

(** Invariant of the header loop: once an origin is set, it has an entry in
    the signatures. *)
Definition origin_signed (acc : option str * JsonRequest) : Prop :=
  ∀ o, acc.1 = Some o → is_Some (jr_signatures acc.2 !! o).

(** An [Authorization] value the header loop gets past: not an [X-Matrix]
    entry, or one that parses and names no destination but the local
    server. *)
Definition entry_passes `{Imports} (self : Authenticator) (auth : bytes) : bool :=
  if startswith (octets "X-Matrix") auth then
    match _parse_auth_header auth with
    | Ok (_, _, _, Some d) => bool_decide (d = server_name self)
    | Ok (_, _, _, None) => true
    | Raise _ => false
    end
  else true.

(** The ways a header value fails to parse. *)
Inductive unparsable `{Imports} (header_bytes : bytes) : Prop :=
| undecodable_bytes e :
    decode_utf8 header_bytes = Raise e → unparsable header_bytes
| no_parameter_list header_str :
    decode_utf8 header_bytes = Ok header_str →
    re_split_spaces header_str !! 1%nat = None → unparsable header_bytes
| not_key_value header_str params param :
    decode_utf8 header_bytes = Ok header_str →
    re_split_spaces header_str !! 1%nat = Some params →
    param ∈ split COMMA params → split_once EQUALS param = None →
    unparsable header_bytes
| missing_parameter param_dict name :
    header_params header_bytes = Ok param_dict →
    name ∈ [text "origin"; text "key"; text "sig"] →
    param_dict !! name = None → unparsable header_bytes
| invalid_origin param_dict value e :
    header_params header_bytes = Ok param_dict →
    param_dict !! text "origin" = Some value →
    parse_and_validate_server_name (strip_quotes value) = Raise e →
    unparsable header_bytes.

(** A raw parameter value is well quoted when it does not open with a double
    quote, or opens and closes with one. *)
Definition well_quoted (raw : str) : bool :=
  match raw with
  | c :: rest =>
      if (c =? QUOTE)%N then
        match last rest with
        | Some d => (d =? QUOTE)%N
        | None => false
        end
      else true
  | [] => true
  end.

(** Writing a value between double quotes: a backslash goes before the
    characters [escaped] selects. *)
Fixpoint escape (escaped : N → bool) (value : str) : str :=
  match value with
  | [] => []
  | c :: r =>
      if escaped c then BACKSLASH :: c :: escape escaped r
      else c :: escape escaped r
  end.

Definition quote (escaped : N → bool) (value : str) : str :=
  QUOTE :: escape escaped value ++ [QUOTE].

(** The usual choice: backslashes and double quotes are escaped. *)
Definition escape_specials (c : N) : bool := ((c =? BACKSLASH) || (c =? QUOTE))%N.

(** [written_as value raw]: [raw] is [value] as it stands, or [value]
    quoted with every backslash escaped and no newline escaped. *)
Inductive written_as (value : str) : str → Prop :=
| written_bare : head value ≠ Some QUOTE → written_as value value
| written_quoted escaped :
    escaped BACKSLASH = true → escaped NEWLINE = false →
    written_as value (quote escaped value).

Definition no_separator (raw : str) : bool :=
  forallb (fun c => negb (c =? SPACE)%N && negb (c =? COMMA)%N) raw.

(** The text of an [X-Matrix] header with the given raw parameter values. *)
Definition x_matrix_header (origin key sig : str) (destination : option str) : str :=
  text "X-Matrix origin=" ++ origin ++ text ",key=" ++ key ++ text ",sig=" ++ sig
  ++ match destination with
     | Some d => text ",destination=" ++ d
     | None => []
     end.

(** The methods a servlet implements, in registration order. *)
Definition implemented {World} (self : BaseFederationServlet World)
  : list (string * Handler World) :=
  omap (fun m => pair m <$> getattr_on self m) ["GET"; "PUT"; "POST"]%string.

Definition anchored_pattern {World} (self : BaseFederationServlet World) : str :=
  text "^" ++ PREFIX self ++ PATH self ++ text "$".

Definition route_of {World} `{HomeServer World} `{Imports}
    (self : BaseFederationServlet World) (mh : string * Handler World)
  : route World :=
  {| route_method := mh.1;
     route_patterns := [Compiled (anchored_pattern self)];
     route_callback := _wrap self mh.2;
     route_servlet_classname := class_name self |}.

(** ** The constructor of the authenticator *)

(** What [Authenticator.__init__] reads of the home server. *)
Record HomeServerConfig := {
  hostname : str;
  config_federation_domain_whitelist : option (list str);
  (** [hs.config.worker.worker_app] *)
  worker_app : option str;
}.

(** [self.replication_client] stays [None] unless [worker_app] is truthy. *)
Definition Authenticator__init__ (hs : HomeServerConfig) : Authenticator :=
  {| server_name := hostname hs;
     federation_domain_whitelist := config_federation_domain_whitelist hs;
     replication_client := truthy (worker_app hs) |}.

(** ** Vocabulary of the further properties *)

(** Text that may follow the parameter list: nothing, or a space and more. *)
Definition trailing (junk : option str) : str :=
  match junk with
  | Some j => SPACE :: j
  | None => []
  end.

(** The origin the header loop ends with: that of the last [X-Matrix] entry
    that parses, or the one it started with. *)
Fixpoint last_origin `{Imports} (auth_headers : list bytes)
    (origin : option str) : option str :=
  match auth_headers with
  | [] => origin
  | auth :: rest =>
      last_origin rest
        (if startswith (octets "X-Matrix") auth then
           match _parse_auth_header auth with
           | Ok (o, _, _, _) => Some o
           | Raise _ => origin
           end
         else origin)
  end.

(** [json_request["signatures"].get(origin, {}).get(key)] *)
Definition signature_of (jr : JsonRequest) (origin key : str) : option str :=
  jr_signatures jr !! origin ≫= fun m => m !! key.

(** The signature the header loop ends with under [origin] and [key]: the
    [sig] of the last [X-Matrix] entry that parses with that origin and
    that key, or the one it started with. *)
Fixpoint last_signature `{Imports} (auth_headers : list bytes)
    (origin key : str) (sig : option str) : option str :=
  match auth_headers with
  | [] => sig
  | auth :: rest =>
      last_signature rest origin key
        (if startswith (octets "X-Matrix") auth then
           match _parse_auth_header auth with
           | Ok (o, k, s, _) =>
               if bool_decide (o = origin ∧ k = key) then Some s else sig
           | Raise _ => sig
           end
         else sig)
  end.

(** What may follow the keyring call in the trace. *)
Definition after_keyring_event (e : event) : bool :=
  match e with
  | GetDestinationRetryTimings _ | SetDestinationRetryTimings _ _ _ _
  | NotifyRemoteServerUp _ | SendRemoteServerUp _ | RunInBackground _ => true
  | _ => false
  end.

(** The request got as far as the keyring: method and URI are ASCII, the
    header loop ended with [origin] and [json_request], and the whitelist,
    if any, holds the origin. *)
Definition reaches_keyring `{Imports} (self : Authenticator)
    (request : SynapseRequest) (content : option JsonDict)
    (origin : str) (json_request : JsonRequest) : Prop :=
  ∃ method_str uri_str auth_headers,
    decode_ascii (method request) = Ok method_str
    ∧ decode_ascii (uri request) = Ok uri_str
    ∧ authorization request = Some auth_headers
    ∧ auth_header_loop self auth_headers
        (None, initial_json_request self method_str uri_str content)
      = Ok (Some origin, json_request)
    ∧ ∀ whitelist, federation_domain_whitelist self = Some whitelist →
                   origin ∈ whitelist.

(** The events of a call of the handler under the two spans, for a request
    that is not rate limited. *)
Definition unlimited_events `{HomeServer World} (request : SynapseRequest)
    (kwargs : list (str * str)) (content : option JsonDict)
    (origin : option str) : list event :=
  [SetAttribute (text "authenticated_entity") (str_of origin);
   SpanEnter (remote_parent_span request origin);
   SpanEnter (local_parent_span request origin);
   CallHandler origin content (args request) kwargs;
   SpanExit (local_parent_span request origin);
   SpanExit (remote_parent_span request origin)].

(** The same for a request admitted by the rate limiter. *)
Definition admitted_events `{HomeServer World} (request : SynapseRequest)
    (kwargs : list (str * str)) (content : option JsonDict)
    (origin : str) : list event :=
  [SetAttribute (text "authenticated_entity") origin;
   SpanEnter (remote_parent_span request (Some origin));
   SpanEnter (local_parent_span request (Some origin));
   RatelimitEnter origin; RatelimitWait origin;
   CallHandler (Some origin) content (args request) kwargs;
   RatelimitExit origin;
   SpanExit (local_parent_span request (Some origin));
   SpanExit (remote_parent_span request (Some origin))].

Definition is_replication_send (e : event) : bool :=
  match e with
  | SendRemoteServerUp _ => true
  | _ => false
  end.

Definition is_ratelimit_wait (e : event) : bool :=
  match e with
  | RatelimitWait _ => true
  | _ => false
  end.

Definition is_ratelimit_exit (e : event) : bool :=
  match e with
  | RatelimitExit _ => true
  | _ => false
  end.

(** The [content] the callback hands on: the decoded body of a PUT or POST,
    nothing for any other method. *)
Definition request_content {World} `{HomeServer World}
    (request : SynapseRequest) : result (option JsonDict) :=
  if bool_decide (method request ∈ [octets "PUT"; octets "POST"])
  then Some <$> parse_json_object_from_request request
  else Ok None.

(** The invariant of the header loop: destination and content stay as first
    built; an origin, once set, is a valid server name, is what
    [json_request] names as origin and has signatures. *)
Definition loop_invariant `{Imports} (self : Authenticator)
    (content : option JsonDict) (acc : option str * JsonRequest) : Prop :=
  jr_destination acc.2 = server_name self
  ∧ jr_content acc.2 = content
  ∧ ∀ o, acc.1 = Some o →
      parse_and_validate_server_name o = Ok tt
      ∧ jr_origin acc.2 = Some o
      ∧ is_Some (jr_signatures acc.2 !! o).

(** The rest of [authenticate_request], from the keyring call on. *)
Definition verified_part `{Imports} {World} `{HomeServer World}
    (self : Authenticator) (origin : str) (json_request : JsonRequest) (now : Z)
  : M World str :=
  log (VerifyJsonForServer origin json_request now);;
  call (verify_json_for_server origin json_request now);;
  set_requester origin;;
  log (GetDestinationRetryTimings origin);;
  retry_timings ← call (get_destination_retry_timings origin);
  match retry_timings with
  | Some timings =>
      if bool_decide (retry_last_ts timings ≠ 0)
      then run_in_background self (ResetRetryTimings origin)
      else mret tt
  | None => mret tt
  end;;
  mret origin.

(** A handler call that was given no origin. *)
Definition is_anonymous_call (e : event) : bool :=
  match e with
  | CallHandler None _ _ _ => true
  | _ => false
  end.

(** ** A concrete home server, for closed instances of the theorems *)

Module Example.

Definition COLON : N := 58.

Definition is_digit (c : N) : bool := ((48 <=? c) && (c <=? 57))%N.

Definition is_host_char (c : N) : bool :=
  (is_digit c || ((65 <=? c) && (c <=? 90)) || ((97 <=? c) && (c <=? 122))
   || (c =? 45) || (c =? 46))%N.

Definition nonempty (s : str) : bool :=
  match s with
  | [] => false
  | _ :: _ => true
  end.

(** Modelled from the spec: [synapse.util.stringutils] is not among the
    sources.  A server name is "a validated [host[:port]]-shaped
    identifier": a non-empty host of letters, digits, dots and hyphens,
    optionally followed by a colon and a non-empty decimal port. *)
Definition valid_server_name (s : str) : bool :=
  match split_once COLON s with
  | Some (host, port) =>
      nonempty host && forallb is_host_char host
      && nonempty port && forallb is_digit port
  | None => nonempty s && forallb is_host_char s
  end.

#[export] Instance imports : Imports := {|
  parse_and_validate_server_name s :=
    if valid_server_name s then Ok tt else Raise ValueError;
  unicode_lower s := s;
  re_valid _ := true;
|}.

Record collaborators := {
  now : Z;
  trusted : list str;
  store : list (str * DestinationRetryTimings);
  store_broken : bool;
  notified : list str;
  peer_gone : bool;
  eager : bool;
}.

Definition set_store (w : collaborators) (origin : str)
    (timings : DestinationRetryTimings) : collaborators :=
  {| now := now w; trusted := trusted w;
     store := (origin, timings) :: store w;
     store_broken := store_broken w; notified := notified w;
     peer_gone := peer_gone w; eager := eager w |}.

Definition add_notified (w : collaborators) (origin : str) : collaborators :=
  {| now := now w; trusted := trusted w; store := store w;
     store_broken := store_broken w; notified := notified w ++ [origin];
     peer_gone := peer_gone w; eager := eager w |}.

Definition lookup_store (origin : str)
    (s : list (str * DestinationRetryTimings)) : option DestinationRetryTimings :=
  snd <$> List.find (fun kv => bool_decide (kv.1 = origin)) s.

#[export] Instance home_server : HomeServer collaborators := {|
  time_msec := now;
  verify_json_for_server origin _ _ w :=
    (if bool_decide (origin ∈ trusted w) then Ok tt
     else Raise (ExternalError 403), w);
  get_destination_retry_timings origin w := (Ok (lookup_store origin (store w)), w);
  set_destination_retry_timings origin failure last interval w :=
    if store_broken w then (Raise (ExternalError 500), w)
    else (Ok tt, set_store w origin
                   {| failure_ts := failure; retry_last_ts := last;
                      retry_interval := interval |});
  notify_remote_server_up origin w := (Ok tt, add_notified w origin);
  send_remote_server_up origin w := (Ok tt, w);
  parse_json_object_from_request _ := Ok [];
  whitelisted_homeserver origin := bool_decide (origin = text "example.org");
  span_context_from_request _ := Some 7%N;
  ratelimit_enter _ w := (Ok tt, w);
  ratelimit_wait _ w := (Ok tt, w);
  ratelimit_exit _ w := w;
  request_disconnected := peer_gone;
  background_runs_first := eager;
|}.

Definition my_server (whitelist : option (list str)) : Authenticator :=
  {| server_name := text "my.server";
     federation_domain_whitelist := whitelist;
     replication_client := false |}.

Definition quiet : collaborators :=
  {| now := 1000; trusted := [text "example.org"]; store := [];
     store_broken := false; notified := []; peer_gone := false;
     eager := false |}.

Definition initial (w : collaborators) : state collaborators :=
  {| world := w; requester := None; trace := []; background := [] |}.

Definition get_request (headers : list string) : SynapseRequest :=
  {| method := octets "GET"; uri := octets "/_matrix/federation/v1/version";
     authorization := Some (octets <$> headers); args := []; body := [] |}.

Definition echo : Handler collaborators :=
  {| run_handler origin _ _ _ w := (Ok (Some (200, JString (str_of origin))), w);
     cancellable := false |}.

Definition servlet (whitelist : option (list str))
  : BaseFederationServlet collaborators :=
  {| class_name := "FederationVersionServlet";
     PATH := text "/version";
     PREFIX := text "/_matrix/federation/v1";
     REQUIRE_AUTH := true;
     RATELIMIT := true;
     authenticator := my_server whitelist;
     on_GET := Some echo;
     on_PUT := None;
     on_POST := None |}.

(** The scenario header of the specification, every value quoted. *)
Definition scenario_header : bytes :=
  octets "X-Matrix origin=" ++ x22 :: octets "example.org" ++ x22 ::
  octets ",key=" ++ x22 :: octets "ed25519:1" ++ x22 ::
  octets ",sig=" ++ x22 :: octets "abcd" ++ [x22].

(** A quoted key that holds a comma. *)
Definition quoted_comma_header : bytes :=
  octets "X-Matrix origin=a.org,key=" ++ x22 :: octets "a,b" ++ x22 ::
  octets ",sig=s".

(** A key that opens with a double quote and never closes it. *)
Definition unterminated_quote_header : bytes :=
  octets "X-Matrix origin=a.org,sig=s,key=" ++ x22 :: octets "abc".

Definition plain_header : string :=
  "X-Matrix origin=example.org,key=ed25519:1,sig=abcd".

Definition wrong_destination_header : string :=
  "X-Matrix origin=evil.org,key=k,sig=s,destination=wrong.server".

(** The origin was marked down at time 5, the store is out of order and
    background tasks run at once. *)
Definition was_down (gone : bool) : collaborators :=
  {| now := 1000; trusted := [text "example.org"];
     store := [(text "example.org",
                {| failure_ts := Some 1; retry_last_ts := 5;
                   retry_interval := 60000 |})];
     store_broken := true; notified := []; peer_gone := gone; eager := true |}.

(** The origin was marked down at time 5, the store works and background
    tasks run at once. *)
Definition came_back : collaborators :=
  {| now := 1000; trusted := [text "example.org"];
     store := [(text "example.org",
                {| failure_ts := Some 1; retry_last_ts := 5;
                   retry_interval := 60000 |})];
     store_broken := false; notified := []; peer_gone := false; eager := true |}.

(** A handler that raises. *)
Definition failing : Handler collaborators :=
  {| run_handler _ _ _ _ w := (Raise (ExternalError 500), w);
     cancellable := false |}.

Definition cancellable_echo : Handler collaborators :=
  {| run_handler := run_handler echo; cancellable := true |}.

(** Three [X-Matrix] headers and a [Basic] one: two origins, and one
    origin and key given twice. *)
Definition repeated_key : list string :=
  ["X-Matrix origin=example.org,key=k,sig=FIRST";
   "X-Matrix origin=first.org,key=k1,sig=s1"; "Basic abc";
   "X-Matrix origin=example.org,key=k,sig=SECOND"].

(** The scheme misspelt, spaces repeated, text after the parameters. *)
Definition sloppy_header : bytes :=
  octets "X-MatrixFoo   origin=example.org,key=ed25519:1,sig=abcd junk,more".

(** A servlet that asks for no authentication. *)
Definition open_servlet : BaseFederationServlet collaborators :=
  {| class_name := "OpenServlet";
     PATH := text "/open";
     PREFIX := text "/_matrix/federation/v1";
     REQUIRE_AUTH := false;
     RATELIMIT := true;
     authenticator := my_server None;
     on_GET := Some echo;
     on_PUT := None;
     on_POST := None |}.

Definition no_headers : SynapseRequest :=
  {| method := octets "GET"; uri := octets "/_matrix/federation/v1/open";
     authorization := None; args := []; body := [] |}.

(** The configuration of a main process. *)
Definition main_process : HomeServerConfig :=
  {| hostname := text "my.server";
     config_federation_domain_whitelist := None;
     worker_app := None |}.

(** A servlet that is not rate limited. *)
Definition unlimited_servlet : BaseFederationServlet collaborators :=
  {| class_name := "UnlimitedServlet";
     PATH := text "/unlimited";
     PREFIX := text "/_matrix/federation/v1";
     REQUIRE_AUTH := true;
     RATELIMIT := false;
     authenticator := my_server None;
     on_GET := Some echo;
     on_PUT := None;
     on_POST := None |}.

(** A second home server, whose store can be down, whose rate limiter can
    refuse and whose JSON decoder refuses an empty body; the rest is as
    above. *)
Record strict := {
  base : collaborators;
  store_down : bool;
  over_limit : bool;
}.

Definition on_base {A} (f : collaborators → result A * collaborators)
    (w : strict) : result A * strict :=
  let '(r, b) := f (base w) in
  (r, {| base := b; store_down := store_down w; over_limit := over_limit w |}).

#[export] Instance strict_home_server : HomeServer strict := {|
  time_msec w := now (base w);
  verify_json_for_server origin json_request t :=
    on_base (verify_json_for_server origin json_request t);
  get_destination_retry_timings origin w :=
    if store_down w then (Raise (ExternalError 500), w)
    else on_base (get_destination_retry_timings origin) w;
  set_destination_retry_timings origin failure last interval :=
    on_base (set_destination_retry_timings origin failure last interval);
  notify_remote_server_up origin := on_base (notify_remote_server_up origin);
  send_remote_server_up origin := on_base (send_remote_server_up origin);
  parse_json_object_from_request request :=
    match body request with
    | [] => Raise (ExternalError 400)
    | _ :: _ => Ok []
    end;
  whitelisted_homeserver origin := bool_decide (origin = text "example.org");
  span_context_from_request _ := Some 7%N;
  ratelimit_enter origin := on_base (ratelimit_enter origin);
  ratelimit_wait origin w :=
    if over_limit w then (Raise (ExternalError 429), w)
    else on_base (ratelimit_wait origin) w;
  ratelimit_exit origin w :=
    {| base := ratelimit_exit origin (base w); store_down := store_down w;
       over_limit := over_limit w |};
  request_disconnected w := peer_gone (base w);
  background_runs_first w := eager (base w);
|}.

Definition strict_initial (down over : bool) : state strict :=
  {| world := {| base := quiet; store_down := down; over_limit := over |};
     requester := None; trace := []; background := [] |}.

Definition strict_echo : Handler strict :=
  {| run_handler origin _ _ _ w := (Ok (Some (200, JString (str_of origin))), w);
     cancellable := false |}.

Definition strict_servlet : BaseFederationServlet strict :=
  {| class_name := "FederationSendServlet";
     PATH := text "/send";
     PREFIX := text "/_matrix/federation/v1";
     REQUIRE_AUTH := true;
     RATELIMIT := true;
     authenticator := my_server None;
     on_GET := Some strict_echo;
     on_PUT := Some strict_echo;
     on_POST := None |}.

(** A PUT with an empty body. *)
Definition empty_put : SynapseRequest :=
  {| method := octets "PUT"; uri := octets "/_matrix/federation/v1/send";
     authorization := Some [octets plain_header]; args := []; body := [] |}.

Definition cancellable_servlet : BaseFederationServlet collaborators :=
  {| class_name := "FederationVersionServlet";
     PATH := text "/version";
     PREFIX := text "/_matrix/federation/v1";
     REQUIRE_AUTH := true;
     RATELIMIT := true;
     authenticator := my_server None;
     on_GET := Some echo;
     on_PUT := Some cancellable_echo;
     on_POST := None |}.

End Example.

(** * Properties *)

(** ** The result monad *)

Lemma result_bind_Ok {A B} (a : A) (k : A → result B) : Ok a ≫= k = k a.
Proof. reflexivity. Qed.
Lemma result_bind_Raise {A B} e (k : A → result B) : Raise e ≫= k = Raise e.
Proof. reflexivity. Qed.
Lemma result_fmap_Ok {A B} (f : A → B) a : f <$> Ok a = Ok (f a).
Proof. reflexivity. Qed.
Lemma result_fmap_Raise {A B} (f : A → B) e : f <$> (Raise e : result A) = Raise e.
Proof. reflexivity. Qed.
Lemma result_mret {A} (a : A) : mret a = Ok a.
Proof. reflexivity. Qed.

Ltac rsimpl :=
  repeat (rewrite ?result_bind_Ok, ?result_bind_Raise, ?result_fmap_Ok,
            ?result_fmap_Raise, ?result_mret; cbv beta).

Ltac forall_ne :=
  repeat match goal with
  | |- Forall _ (_ ++ _) => apply Forall_app; split
  | |- Forall _ (_ :: _) => constructor; [by (vm_compute; intros ?; discriminate)|]
  | |- Forall _ [] => constructor
  | |- Forall _ (text _) => by apply (bool_decide_eq_true_1 _)
  | |- Forall _ _ => assumption
  end.

Section parser_facts.
Context `{Imports}.

Lemma unpack_key_value_raise p e :
  unpack_key_value p = Raise e ↔ split_once EQUALS p = None ∧ e = ValueError.
Proof.
  unfold unpack_key_value. destruct (split_once EQUALS p); split;
    (intros [??] || intros ?); try split; congruence.
Qed.

Lemma mapM_unpack_raise (params : list str) e :
  mapM unpack_key_value params = Raise e →
  ∃ param, param ∈ params ∧ split_once EQUALS param = None.
Proof.
  induction params as [|p params IH]; [discriminate|].
  change (mapM unpack_key_value (p :: params)) with
    (y ← unpack_key_value p; k ← mapM unpack_key_value params; mret (y :: k)).
  destruct (unpack_key_value p) as [kv|e0] eqn:Hp.
  - destruct (mapM unpack_key_value params) as [l|e'] eqn:Hl; rsimpl; [discriminate|].
    intros [= <-]. destruct (IH eq_refl) as (q & Hq & Hn).
    exists q. split; [by right | done].
  - intros _. apply unpack_key_value_raise in Hp as [Hp _].
    exists p. split; [by left | done].
Qed.

Lemma mapM_unpack_none (params : list str) param :
  param ∈ params → split_once EQUALS param = None →
  ∃ e, mapM unpack_key_value params = Raise e.
Proof.
  induction 1 as [p l | p q l Hin IH]; intros Hn.
  - change (mapM unpack_key_value (p :: l)) with
      (y ← unpack_key_value p; k ← mapM unpack_key_value l; mret (y :: k)).
    assert (unpack_key_value p = Raise ValueError) as ->
      by by apply unpack_key_value_raise.
    rsimpl. eauto.
  - change (mapM unpack_key_value (q :: l)) with
      (y ← unpack_key_value q; k ← mapM unpack_key_value l; mret (y :: k)).
    destruct (IH Hn) as [e ->].
    destruct (unpack_key_value q); rsimpl; eauto.
Qed.

Lemma header_params_raise header_bytes e :
  header_params header_bytes = Raise e → unparsable header_bytes.
Proof.
  unfold header_params.
  destruct (decode_utf8 header_bytes) as [s|e0] eqn:Hd; rsimpl;
    [|intros _; by eapply undecodable_bytes].
  destruct (re_split_spaces s !! 1%nat) as [p|] eqn:Hs; rsimpl;
    [|intros _; by eapply no_parameter_list].
  destruct (mapM unpack_key_value (split COMMA p)) as [l|e1] eqn:Hm; rsimpl;
    [discriminate|]. intros _.
  destruct (mapM_unpack_raise _ _ Hm) as (q & Hq & Hn).
  by eapply not_key_value.
Qed.

Lemma body_raise_unparsable header_bytes e :
  parse_auth_header_body header_bytes = Raise e → unparsable header_bytes.
Proof.
  unfold parse_auth_header_body.
  destruct (header_params header_bytes) as [d|e0] eqn:Hp; rsimpl;
    [|intros _; by eapply header_params_raise].
  unfold getitem.
  destruct (d !! text "origin") as [o|] eqn:Ho; rsimpl;
    [|intros _; eapply (missing_parameter _ d (text "origin")); [done|set_solver|done]].
  destruct (parse_and_validate_server_name (strip_quotes o)) as [[]|e1] eqn:Hv; rsimpl;
    [|intros _; by eapply invalid_origin].
  destruct (d !! text "key") as [k|] eqn:Hk; rsimpl;
    [|intros _; eapply (missing_parameter _ d (text "key")); [done|set_solver|done]].
  destruct (d !! text "sig") as [g|] eqn:Hg; rsimpl;
    [discriminate|intros _; eapply (missing_parameter _ d (text "sig")); [done|set_solver|done]].
Qed.

Lemma unparsable_body_raise header_bytes :
  unparsable header_bytes → ∃ e, parse_auth_header_body header_bytes = Raise e.
Proof.
  unfold parse_auth_header_body, header_params.
  destruct 1 as [e Hd | s Hd Hs | s p q Hd Hs Hq Hn | d name Hp Hin Hl | d v e Hp Ho Hv].
  - rewrite Hd. rsimpl. eauto.
  - rewrite Hd. rsimpl. rewrite Hs. rsimpl. eauto.
  - rewrite Hd. rsimpl. rewrite Hs. rsimpl.
    destruct (mapM_unpack_none _ _ Hq Hn) as [e ->]. rsimpl. eauto.
  - unfold header_params in Hp. rewrite Hp. rsimpl. unfold getitem.
    destruct (d !! text "origin") as [o|] eqn:Ho; rsimpl; [|eauto].
    destruct (parse_and_validate_server_name (strip_quotes o)) as [[]|e1]; rsimpl; [|eauto].
    destruct (d !! text "key") as [k|] eqn:Hk; rsimpl; [|eauto].
    destruct (d !! text "sig") as [g|] eqn:Hg; rsimpl; [|eauto].
    exfalso. rewrite !elem_of_cons in Hin. rewrite elem_of_nil in Hin.
    destruct Hin as [->|[->|[->|[]]]]; congruence.
  - unfold header_params in Hp. rewrite Hp. rsimpl. unfold getitem. rewrite Ho. rsimpl.
    rewrite Hv. rsimpl. eauto.
Qed.

Lemma parse_auth_header_raise header_bytes e :
  _parse_auth_header header_bytes = Raise e → e = malformed_header.
Proof.
  unfold _parse_auth_header.
  destruct (parse_auth_header_body header_bytes); congruence.
Qed.

(** C6, amended.  A header value fails to parse exactly when it is
    unparsable in one of these ways: its bytes are not UTF-8, no parameter
    list follows the scheme, a parameter has no [=], one of [origin], [key],
    [sig] is missing, or the origin is not a valid server name.  It then
    raises the 400 "Malformed Authorization header" authentication error,
    and [_parse_auth_header] never raises anything else.  Quoting is not
    among the causes: it is not checked. *)
Theorem parse_auth_header_malformed (header_bytes : bytes) :
  (unparsable header_bytes →
   _parse_auth_header header_bytes = Raise malformed_header)
  ∧ (∀ e, _parse_auth_header header_bytes = Raise e →
          e = malformed_header ∧ unparsable header_bytes).
Proof.
  unfold _parse_auth_header. split.
  - intros Hu. by destruct (unparsable_body_raise _ Hu) as [e ->].
  - intros e. destruct (parse_auth_header_body header_bytes) as [r|e0] eqn:Hb;
      [discriminate|].
    intros [= <-]. split; [done|]. by eapply body_raise_unparsable.
Qed.

(** *** Quoting *)

Lemma unescape_escape escaped value :
  escaped BACKSLASH = true → escaped NEWLINE = false →
  unescape (escape escaped value) = value.
Proof.
  intros Hb Hn. induction value as [|c r IH]; [done|]. simpl.
  destruct (escaped c) eqn:Hc; simpl.
  - destruct (c =? NEWLINE)%N eqn:Hcn.
    + apply N.eqb_eq in Hcn. congruence.
    + by rewrite IH.
  - destruct (c =? BACKSLASH)%N eqn:Hcb.
    + apply N.eqb_eq in Hcb. congruence.
    + by rewrite IH.
Qed.

Lemma strip_quotes_written value raw :
  written_as value raw → strip_quotes raw = value.
Proof.
  destruct 1 as [Hh | escaped Hb Hn].
  - unfold strip_quotes. destruct value as [|c r]; [done|].
    destruct (c =? QUOTE)%N eqn:Hc; [|done].
    apply N.eqb_eq in Hc. subst c. by destruct Hh.
  - unfold strip_quotes, quote, slice_1_m1. simpl.
    rewrite removelast_last. by apply unescape_escape.
Qed.

(** *** Splitting *)

Lemma split_once_app sep k v :
  Forall (fun c => c ≠ sep) k → split_once sep (k ++ sep :: v) = Some (k, v).
Proof.
  induction 1 as [|c k Hc _ IH]; simpl.
  - by rewrite N.eqb_refl.
  - apply N.eqb_neq in Hc. by rewrite Hc, IH.
Qed.

Lemma split_no_sep sep s :
  Forall (fun c => c ≠ sep) s → split sep s = [s].
Proof.
  induction 1 as [|c s Hc _ IH]; simpl; [done|].
  apply N.eqb_neq in Hc. by rewrite Hc, IH.
Qed.

Lemma split_app sep a b :
  Forall (fun c => c ≠ sep) a → split sep (a ++ sep :: b) = a :: split sep b.
Proof.
  induction 1 as [|c a Hc _ IH]; simpl.
  - by rewrite N.eqb_refl.
  - apply N.eqb_neq in Hc. by rewrite Hc, IH.
Qed.

Lemma re_split_spaces_no_space s :
  Forall (fun c => c ≠ SPACE) s → re_split_spaces s = [s].
Proof.
  induction 1 as [|c s Hc _ IH]; simpl; [done|].
  apply N.eqb_neq in Hc. by rewrite Hc, IH.
Qed.

Lemma re_split_spaces_app a b :
  Forall (fun c => c ≠ SPACE) a → Forall (fun c => c ≠ SPACE) b →
  re_split_spaces (a ++ SPACE :: b) = [a; b].
Proof.
  intros Ha Hb. induction Ha as [|c a Hc _ IH].
  - change (re_split_spaces ([] ++ SPACE :: b)) with
      (match b with
       | c' :: _ => if (c' =? SPACE)%N then re_split_spaces b
                    else [] :: re_split_spaces b
       | [] => [] :: re_split_spaces b
       end).
    rewrite (re_split_spaces_no_space b Hb).
    destruct Hb as [|c' b Hc' _]; [done|].
    apply N.eqb_neq in Hc'. by rewrite Hc'.
  - simpl. apply N.eqb_neq in Hc. by rewrite Hc, IH.
Qed.

Lemma no_separator_Forall raw :
  no_separator raw = true →
  Forall (fun c => c ≠ SPACE) raw ∧ Forall (fun c => c ≠ COMMA) raw.
Proof.
  unfold no_separator. induction raw as [|c r IH]; simpl; [by split|].
  intros [[H1 H2]%andb_prop Hr]%andb_prop.
  apply negb_true_iff, N.eqb_neq in H1, H2.
  destruct (IH Hr). by split; constructor.
Qed.

(** The parameter dictionary of a header written with [x_matrix_header]. *)
Lemma header_params_x_matrix header_bytes ro rk rs rd :
  no_separator ro = true → no_separator rk = true → no_separator rs = true →
  from_option no_separator true rd = true →
  decode_utf8 header_bytes = Ok (x_matrix_header ro rk rs rd) →
  ∃ d, header_params header_bytes = Ok d
       ∧ d !! text "origin" = Some ro ∧ d !! text "key" = Some rk
       ∧ d !! text "sig" = Some rs ∧ d !! text "destination" = rd.
Proof.
  intros [Ho1 Ho2]%no_separator_Forall [Hk1 Hk2]%no_separator_Forall
    [Hs1 Hs2]%no_separator_Forall Hd Hdec.
  assert (Hun : ∀ s v, bool_decide (Forall (fun c => c ≠ EQUALS) (text s)) = true →
                       unpack_key_value (text s ++ EQUALS :: v) = Ok (text s, v)).
  { intros s v Hs. unfold unpack_key_value.
    by rewrite split_once_app by by apply (bool_decide_eq_true_1 _). }
  unfold header_params. rewrite Hdec. rsimpl.
  destruct rd as [d|]; simpl in Hd.
  - apply no_separator_Forall in Hd as [Hd1 Hd2].
    replace (x_matrix_header ro rk rs (Some d)) with
      (text "X-Matrix" ++ SPACE ::
         ((text "origin" ++ EQUALS :: ro) ++ COMMA ::
          (text "key" ++ EQUALS :: rk) ++ COMMA ::
          (text "sig" ++ EQUALS :: rs) ++ COMMA ::
          (text "destination" ++ EQUALS :: d))).
    2:{ unfold x_matrix_header.
        change (text "X-Matrix origin=") with
          (text "X-Matrix" ++ SPACE :: text "origin" ++ [EQUALS]).
        change (text ",key=") with (COMMA :: text "key" ++ [EQUALS]).
        change (text ",sig=") with (COMMA :: text "sig" ++ [EQUALS]).
        change (text ",destination=") with (COMMA :: text "destination" ++ [EQUALS]).
        repeat (rewrite <- ?app_assoc; simpl; f_equal). }
    rewrite re_split_spaces_app by forall_ne.
    change ([?a; ?b] !! 1%nat) with (Some b). cbv beta iota. rsimpl.
    rewrite !split_app by forall_ne. rewrite split_no_sep by forall_ne.
    change (mapM unpack_key_value ?l) with
      (y1 ← unpack_key_value (text "origin" ++ EQUALS :: ro);
       k1 ← (y2 ← unpack_key_value (text "key" ++ EQUALS :: rk);
             k2 ← (y3 ← unpack_key_value (text "sig" ++ EQUALS :: rs);
                   k3 ← (y4 ← unpack_key_value (text "destination" ++ EQUALS :: d);
                         k4 ← mret []; mret (y4 :: k4));
                   mret (y3 :: k3));
             mret (y2 :: k2));
       mret (y1 :: k1)).
    rewrite !Hun by done. rsimpl.
    eexists. split; [done|]. unfold param_dict_of. simpl.
    change (lower (text "origin")) with (text "origin").
    change (lower (text "key")) with (text "key").
    change (lower (text "sig")) with (text "sig").
    change (lower (text "destination")) with (text "destination").
    repeat split;
      by rewrite ?lookup_insert_ne, ?lookup_insert_eq, ?lookup_empty by done.
  - replace (x_matrix_header ro rk rs None) with
      (text "X-Matrix" ++ SPACE ::
         ((text "origin" ++ EQUALS :: ro) ++ COMMA ::
          (text "key" ++ EQUALS :: rk) ++ COMMA ::
          (text "sig" ++ EQUALS :: rs))).
    2:{ unfold x_matrix_header.
        change (text "X-Matrix origin=") with
          (text "X-Matrix" ++ SPACE :: text "origin" ++ [EQUALS]).
        change (text ",key=") with (COMMA :: text "key" ++ [EQUALS]).
        change (text ",sig=") with (COMMA :: text "sig" ++ [EQUALS]).
        rewrite app_nil_r.
        repeat (rewrite <- ?app_assoc; simpl; f_equal). }
    rewrite re_split_spaces_app by forall_ne.
    change ([?a; ?b] !! 1%nat) with (Some b). cbv beta iota. rsimpl.
    rewrite !split_app by forall_ne. rewrite split_no_sep by forall_ne.
    change (mapM unpack_key_value ?l) with
      (y1 ← unpack_key_value (text "origin" ++ EQUALS :: ro);
       k1 ← (y2 ← unpack_key_value (text "key" ++ EQUALS :: rk);
             k2 ← (y3 ← unpack_key_value (text "sig" ++ EQUALS :: rs);
                   k3 ← mret []; mret (y3 :: k3));
             mret (y2 :: k2));
       mret (y1 :: k1)).
    rewrite !Hun by done. rsimpl.
    eexists. split; [done|]. unfold param_dict_of. simpl.
    change (lower (text "origin")) with (text "origin").
    change (lower (text "key")) with (text "key").
    change (lower (text "sig")) with (text "sig").
    repeat split;
      by rewrite ?lookup_insert_ne, ?lookup_insert_eq, ?lookup_empty by done.
Qed.

(** C7, amended.  In a header [X-Matrix origin=..,key=..,sig=..] with an
    optional [destination], each value written bare (not starting with a
    double quote) or between double quotes with backslash escapes parses
    to the value itself, provided the raw texts hold no space and no
    comma and the origin is a valid server name. *)
Theorem quoted_values_round_trip header_bytes origin key sig destination
    raw_origin raw_key raw_sig raw_destination :
  written_as origin raw_origin →
  written_as key raw_key →
  written_as sig raw_sig →
  option_Forall2 written_as destination raw_destination →
  no_separator raw_origin = true →
  no_separator raw_key = true →
  no_separator raw_sig = true →
  from_option no_separator true raw_destination = true →
  parse_and_validate_server_name origin = Ok tt →
  decode_utf8 header_bytes =
    Ok (x_matrix_header raw_origin raw_key raw_sig raw_destination) →
  _parse_auth_header header_bytes = Ok (origin, key, sig, destination).
Proof.
  intros Wo Wk Ws Wd No Nk Ns Nd Hv Hdec.
  destruct (header_params_x_matrix _ _ _ _ _ No Nk Ns Nd Hdec)
    as (d & Hp & Ho & Hk & Hs & Hd).
  unfold _parse_auth_header, parse_auth_header_body, getitem.
  rewrite Hp. rsimpl. rewrite Ho, Hk, Hs, Hd. rsimpl.
  rewrite (strip_quotes_written _ _ Wo), (strip_quotes_written _ _ Wk),
    (strip_quotes_written _ _ Ws), Hv. rsimpl.
  destruct Wd as [v raw Wv|]; simpl; [|done].
  by rewrite (strip_quotes_written _ _ Wv).
Qed.

(** C9, amended.  Of a successfully parsed header only the origin has
    passed server-name validation; the destination returned is the
    [destination] parameter with its quotes stripped, whatever it is. *)
Theorem destination_returned_unvalidated header_bytes origin key sig destination :
  _parse_auth_header header_bytes = Ok (origin, key, sig, destination) →
  ∃ param_dict,
    header_params header_bytes = Ok param_dict
    ∧ destination = strip_quotes <$> param_dict !! text "destination"
    ∧ (∃ raw, param_dict !! text "origin" = Some raw ∧ origin = strip_quotes raw)
    ∧ parse_and_validate_server_name origin = Ok tt.
Proof.
  unfold _parse_auth_header, parse_auth_header_body, getitem.
  destruct (header_params header_bytes) as [d|e0]; rsimpl; [|discriminate].
  destruct (d !! text "origin") as [o|] eqn:Ho; rsimpl; [|discriminate].
  destruct (parse_and_validate_server_name (strip_quotes o)) as [[]|e1] eqn:Hv;
    rsimpl; [|discriminate].
  destruct (d !! text "key") as [k|]; rsimpl; [|discriminate].
  destruct (d !! text "sig") as [g|]; rsimpl; [|discriminate].
  intros [= <- <- <- <-]. exists d.
  split; [done|]. split; [done|]. split; [by exists o | done].
Qed.
End parser_facts.

(** ** The authenticator *)

(** Unfolding the state monad. *)
Ltac munfold :=
  unfold mbind, mret, fmap, M_bind, M_ret, M_fmap, bind, ret, raise, lift,
    log, call, read, try_except, finally, spawn, set_requester.

Section authenticator_facts.
Context `{Imports} {World : Type} `{HomeServer World}.
Variable self : Authenticator.

Lemma decode_ascii_raise bs e : decode_ascii bs = Raise e → e = UnicodeDecodeError.
Proof.
  induction bs as [|b r IH]; simpl; [discriminate|].
  destruct (Byte.to_N b <? 128)%N; [|congruence].
  destruct (decode_ascii r); rsimpl; [discriminate|]. intros [= <-]. by apply IH.
Qed.

Lemma auth_header_step_passes acc auth :
  entry_passes self auth = true →
  ∃ acc', auth_header_step self acc auth = Ok acc'.
Proof.
  unfold entry_passes, auth_header_step.
  destruct (startswith (octets "X-Matrix") auth); [|eauto].
  destruct (_parse_auth_header auth) as [[[[o k] s] d]|e]; rsimpl; [|discriminate].
  destruct d as [d|]; [|eauto].
  intros Hd%bool_decide_eq_true. rewrite bool_decide_eq_false_2 by (by intros ?). eauto.
Qed.


Lemma auth_header_step_raise acc auth e :
  auth_header_step self acc auth = Raise e →
  e = malformed_header ∨ e = destination_mismatch.
Proof.
  unfold auth_header_step.
  destruct (startswith (octets "X-Matrix") auth); [|discriminate].
  destruct (_parse_auth_header auth) as [[[[o k] s] d]|e0] eqn:Hp; rsimpl.
  - destruct d as [d|]; [|discriminate].
    destruct (bool_decide (d ≠ server_name self)); [|discriminate].
    intros [= <-]. by right.
  - intros [= <-]. left. by eapply parse_auth_header_raise.
Qed.

Lemma auth_header_step_mismatch acc auth origin key sig d :
  startswith (octets "X-Matrix") auth = true →
  _parse_auth_header auth = Ok (origin, key, sig, Some d) →
  d ≠ server_name self →
  auth_header_step self acc auth = Raise destination_mismatch.
Proof.
  intros Hs Hp Hd. unfold auth_header_step. rewrite Hs, Hp. rsimpl.
  by rewrite bool_decide_eq_true_2.
Qed.

Lemma auth_header_step_other acc auth :
  startswith (octets "X-Matrix") auth = false →
  auth_header_step self acc auth = Ok acc.
Proof. intros Hs. unfold auth_header_step. by rewrite Hs. Qed.

Lemma auth_header_loop_cons auth rest acc :
  auth_header_loop self (auth :: rest) acc =
  (acc' ← auth_header_step self acc auth; auth_header_loop self rest acc').
Proof. reflexivity. Qed.

Lemma auth_header_loop_raise auth_headers acc e :
  auth_header_loop self auth_headers acc = Raise e →
  e = malformed_header ∨ e = destination_mismatch.
Proof.
  revert acc. induction auth_headers as [|auth rest IH]; intros acc;
    [discriminate|].
  rewrite auth_header_loop_cons.
  destruct (auth_header_step self acc auth) as [acc'|e0] eqn:Hstep; rsimpl.
  - apply IH.
  - intros [= <-]. by eapply auth_header_step_raise.
Qed.


Lemma auth_header_loop_passes_Ok auth_headers acc :
  Forall (fun a => entry_passes self a = true) auth_headers →
  ∃ acc', auth_header_loop self auth_headers acc = Ok acc'.
Proof.
  intros Hall. revert acc. induction Hall as [|auth rest Ha _ IH]; intros acc.
  - by exists acc.
  - rewrite auth_header_loop_cons.
    destruct (auth_header_step_passes acc auth Ha) as [acc1 ->]. rsimpl. apply IH.
Qed.

(** A list holding an entry with a foreign destination never gets through
    the loop. *)
Lemma auth_header_loop_mismatch before auth after acc origin key sig d :
  startswith (octets "X-Matrix") auth = true →
  _parse_auth_header auth = Ok (origin, key, sig, Some d) →
  d ≠ server_name self →
  ∃ e, auth_header_loop self (before ++ auth :: after) acc = Raise e
       ∧ (Forall (fun a => entry_passes self a = true) before →
          e = destination_mismatch).
Proof.
  intros Hs Hp Hd. revert acc.
  induction before as [|b before IH]; intros acc.
  - simpl app. rewrite auth_header_loop_cons.
    rewrite (auth_header_step_mismatch _ _ _ _ _ _ Hs Hp Hd). rsimpl. eauto.
  - simpl app. rewrite auth_header_loop_cons.
    destruct (auth_header_step self acc b) as [acc'|e0] eqn:Hstep; rsimpl.
    + destruct (IH acc') as (e & He & Hall). exists e. split; [done|].
      intros Hf. apply Hall. by inversion Hf.
    + exists e0. split; [done|]. intros Hf. inversion Hf as [|?? Hb _]; subst.
      destruct (auth_header_step_passes acc b Hb) as [? ?]. congruence.
Qed.

Lemma auth_header_loop_other auth_headers acc :
  Forall (fun a => startswith (octets "X-Matrix") a = false) auth_headers →
  auth_header_loop self auth_headers acc = Ok acc.
Proof.
  induction 1 as [|a l Ha _ IH]; [done|].
  rewrite auth_header_loop_cons, auth_header_step_other by done. by rsimpl.
Qed.

Lemma auth_header_step_signed acc auth acc' :
  origin_signed acc → auth_header_step self acc auth = Ok acc' →
  origin_signed acc'.
Proof.
  unfold auth_header_step. intros Hacc.
  destruct (startswith (octets "X-Matrix") auth); [|by intros [= <-]].
  destruct (_parse_auth_header auth) as [[[[o k] s] d]|e0]; rsimpl; [|discriminate].
  assert (origin_signed (Some o, add_signature o k s acc.2)) as Hnew.
  { intros o' [= <-]. simpl. rewrite lookup_insert_eq. eauto. }
  destruct d as [d|]; [|by intros [= <-]].
  destruct (bool_decide (d ≠ server_name self)); [discriminate|by intros [= <-]].
Qed.

Lemma auth_header_loop_signed auth_headers acc acc' :
  origin_signed acc → auth_header_loop self auth_headers acc = Ok acc' →
  origin_signed acc'.
Proof.
  revert acc. induction auth_headers as [|auth rest IH]; intros acc Hacc.
  - by intros [= <-].
  - rewrite auth_header_loop_cons.
    destruct (auth_header_step self acc auth) as [acc1|e0] eqn:Hstep; rsimpl;
      [|discriminate].
    apply IH. by eapply auth_header_step_signed.
Qed.

Lemma auth_header_loop_signatures auth_headers jr0 origin jr :
  auth_header_loop self auth_headers (None, jr0) = Ok (Some origin, jr) →
  jr_signatures jr ≠ ∅.
Proof.
  intros Hloop Hempty.
  assert (origin_signed (Some origin, jr)) as Hs.
  { eapply auth_header_loop_signed; [|exact Hloop]. by intros o [=]. }
  destruct (Hs origin eq_refl) as [x Hx]. simpl in Hx.
  rewrite Hempty, lookup_empty in Hx. discriminate.
Qed.

(** *** Running [authenticate_request] *)

(** The run up to the end of the header loop. *)
Lemma authenticate_request_loop_raise request content st method_str uri_str
    auth_headers e :
  decode_ascii (method request) = Ok method_str →
  decode_ascii (uri request) = Ok uri_str →
  authorization request = Some auth_headers →
  auth_header_loop self auth_headers
    (None, initial_json_request self method_str uri_str content) = Raise e →
  authenticate_request self request content st = (Raise e, st).
Proof.
  intros Hm Hu Ha Hl. unfold authenticate_request. munfold.
  rewrite Hm, Hu, Ha. destruct auth_headers as [|a l]; [discriminate|].
  by rewrite Hl.
Qed.


(** C2, amended.  A request holding an [X-Matrix] entry that parses with
    a destination other than the local server name always fails, with the
    state untouched, so the keyring was not called.  The error is the 401
    destination mismatch when method and URI are ASCII and every value
    before the entry gets past the loop; otherwise it is what failed
    earlier. *)
Theorem destination_mismatch_rejected request content st before auth after
    origin key sig destination :
  authorization request = Some (before ++ auth :: after) →
  startswith (octets "X-Matrix") auth = true →
  _parse_auth_header auth = Ok (origin, key, sig, Some destination) →
  destination ≠ server_name self →
  ∃ e st',
    authenticate_request self request content st = (Raise e, st')
    ∧ st' = st
    ∧ keyring_calls (trace st') = keyring_calls (trace st)
    ∧ e ∈ [UnicodeDecodeError; malformed_header; destination_mismatch]
    ∧ (is_raise (decode_ascii (method request)) = false →
       is_raise (decode_ascii (uri request)) = false →
       Forall (fun a => entry_passes self a = true) before →
       e = destination_mismatch).
Proof.
  intros Ha Hs Hp Hd.
  destruct (decode_ascii (method request)) as [m|e1] eqn:Hm.
  2:{ exists e1, st. split; [|split; [done|split; [done|split]]].
      - unfold authenticate_request. munfold. by rewrite Hm.
      - apply decode_ascii_raise in Hm as ->. set_solver.
      - discriminate. }
  destruct (decode_ascii (uri request)) as [u|e1] eqn:Hu.
  2:{ exists e1, st. split; [|split; [done|split; [done|split]]].
      - unfold authenticate_request. munfold. by rewrite Hm, Hu.
      - apply decode_ascii_raise in Hu as ->. set_solver.
      - discriminate. }
  destruct (auth_header_loop_mismatch before auth after
              (None, initial_json_request self m u content) _ _ _ _ Hs Hp Hd)
    as (e & Hl & Hall).
  exists e, st. split; [|split; [done|split; [done|split]]].
  - by eapply authenticate_request_loop_raise.
  - destruct (auth_header_loop_raise _ _ _ Hl) as [-> | ->]; set_solver.
  - intros _ _. apply Hall.
Qed.

(** C8, amended.  When [Authorization] values are present and none starts
    with [X-Matrix], the request fails with the 401
    [NoAuthenticationError] if no whitelist is configured; with a
    whitelist configured the whitelist test comes first and the request
    fails with [FederationDeniedError(None)].  The state is untouched. *)
Theorem no_x_matrix_entry request content st method_str uri_str auth_headers :
  decode_ascii (method request) = Ok method_str →
  decode_ascii (uri request) = Ok uri_str →
  authorization request = Some auth_headers →
  auth_headers ≠ [] →
  Forall (fun a => startswith (octets "X-Matrix") a = false) auth_headers →
  authenticate_request self request content st
  = (Raise match federation_domain_whitelist self with
           | None => missing_authorization
           | Some _ => FederationDeniedError None
           end, st).
Proof.
  intros Hm Hu Ha Hne Hf. unfold authenticate_request. munfold.
  rewrite Hm, Hu, Ha. destruct auth_headers as [|a l]; [done|].
  rewrite (auth_header_loop_other _ _ Hf).
  by destruct (federation_domain_whitelist self).
Qed.

(** *** The repair task *)

(** The repair task does what [world_after_reset] and [reset_events]
    describe, and nothing else. *)
Lemma reset_retry_timings_exact origin st :
  reset_retry_timings self origin st
  = (Ok tt,
     {| world := world_after_reset self origin (world st);
        requester := requester st;
        trace := trace st ++ reset_events self origin (world st);
        background := background st |}).
Proof.
  unfold reset_retry_timings, world_after_reset, reset_events. munfold.
  unfold push. simpl.
  destruct (set_destination_retry_timings origin None 0 0 (world st))
    as [[[]|e1] w1]; simpl; [|done].
  destruct (notify_remote_server_up origin w1) as [[[]|e2] w2]; simpl;
    [|by rewrite <- app_assoc].
  destruct (replication_client self); simpl; [|by rewrite <- app_assoc].
  destruct (send_remote_server_up origin w2) as [[[]|e3] w3]; simpl;
    by rewrite <- !app_assoc.
Qed.

(** C3.  After a successful verification of an origin whose retry timings
    have a non-zero [retry_last_ts], [authenticate_request] hands
    [reset_retry_timings] to [run_in_background] and returns the origin,
    whatever the store, the notifier and the replication client do.  If
    the task runs before the caller resumes, the collaborators are left
    as the task leaves them and nothing else differs; if it is left to the
    reactor, it is queued and nothing of it has run.  The task always ends
    normally.  It calls the store to write the zero retry state; when the
    write went through it calls the notifier on the store as written; an
    exception of either ends the task and is not raised. *)
Theorem retry_timings_reset_in_background request content st method_str uri_str
    auth_headers origin json_request w1 w2 timings :
  decode_ascii (method request) = Ok method_str →
  decode_ascii (uri request) = Ok uri_str →
  authorization request = Some auth_headers →
  auth_header_loop self auth_headers
    (None, initial_json_request self method_str uri_str content)
    = Ok (Some origin, json_request) →
  (∀ whitelist, federation_domain_whitelist self = Some whitelist →
                origin ∈ whitelist) →
  verify_json_for_server origin json_request (time_msec (world st)) (world st)
    = (Ok tt, w1) →
  get_destination_retry_timings origin w1 = (Ok (Some timings), w2) →
  retry_last_ts timings ≠ 0 →
  (∃ st',
     authenticate_request self request content st = (Ok origin, st')
     ∧ requester st' = Some origin
     ∧ if background_runs_first w2
       then world st' = world_after_reset self origin w2
            ∧ trace st' =
                trace st
                ++ [VerifyJsonForServer origin json_request
                      (time_msec (world st));
                    GetDestinationRetryTimings origin;
                    RunInBackground (ResetRetryTimings origin)]
                ++ reset_events self origin w2
            ∧ background st' = background st
       else world st' = w2
            ∧ trace st' =
                trace st
                ++ [VerifyJsonForServer origin json_request
                      (time_msec (world st));
                    GetDestinationRetryTimings origin;
                    RunInBackground (ResetRetryTimings origin)]
            ∧ background st' = background st ++ [ResetRetryTimings origin])
  ∧ (∀ st0,
       reset_retry_timings self origin st0
       = (Ok tt,
          {| world := world_after_reset self origin (world st0);
             requester := requester st0;
             trace := trace st0 ++ reset_events self origin (world st0);
             background := background st0 |}))
  ∧ (∀ w wa,
       set_destination_retry_timings origin None 0 0 w = (Ok tt, wa) →
       ∃ r wb,
         notify_remote_server_up origin wa = (r, wb)
         ∧ reset_events self origin w !! 1%nat = Some (NotifyRemoteServerUp origin)
         ∧ (is_raise r = true ∨ replication_client self = false →
            world_after_reset self origin w = wb)
         ∧ (is_raise r = false → replication_client self = true →
            world_after_reset self origin w = (send_remote_server_up origin wb).2))
  ∧ (∀ w e wa,
       set_destination_retry_timings origin None 0 0 w = (Raise e, wa) →
       world_after_reset self origin w = wa
       ∧ reset_events self origin w = [SetDestinationRetryTimings origin None 0 0]).
Proof.
  intros Hm Hu Ha Hl Hw Hv Hg Ht.
  split; [|split; [apply reset_retry_timings_exact|split]].
  2:{ intros w wa Hset. unfold world_after_reset, reset_events. rewrite Hset.
      destruct (notify_remote_server_up origin wa) as [[[]|e] wb].
      - exists (Ok tt), wb. split; [done|]. split; [done|]. split.
        + intros [? | ->]; done.
        + by intros _ ->.
      - exists (Raise e), wb. split; [done|]. split; [done|]. by split. }
  2:{ intros w e wa Hset. unfold world_after_reset, reset_events.
      by rewrite Hset. }
  pose proof (auth_header_loop_signatures _ _ _ _ Hl) as Hsig.
  unfold authenticate_request, run_in_background, run_task. munfold.
  rewrite Hm, Hu, Ha. destruct auth_headers as [|a l]; [discriminate|].
  rewrite Hl.
  assert (match federation_domain_whitelist self with
          | Some whitelist => not_in_whitelist (Some origin) whitelist
          | None => false
          end = false) as ->.
  { destruct (federation_domain_whitelist self) as [wl|] eqn:Hwl; [|done].
    unfold not_in_whitelist. apply bool_decide_eq_false_2.
    intros Hn. by apply Hn, Hw. }
  rewrite bool_decide_eq_false_2 by done.
  unfold push. simpl. rewrite Hv. simpl. rewrite Hg. simpl.
  rewrite bool_decide_eq_true_2 by done. simpl.
  destruct (background_runs_first w2) eqn:Hb.
  - rewrite reset_retry_timings_exact. simpl.
    eexists. split; [done|]. simpl. split; [done|]. split; [done|].
    split; [|done]. by rewrite <- !app_assoc.
  - eexists. split; [done|]. simpl. split; [done|]. split; [done|].
    split; [|done]. by rewrite <- !app_assoc.
Qed.
End authenticator_facts.

(** ** Traces *)

Section appends_facts.
Context {World : Type}.
Implicit Types P : event → bool.

Lemma appends_ret P {A} (a : A) : appends P (mret a : M World A).
Proof. intros st r st' [= <- <-]. exists []. by rewrite app_nil_r. Qed.

Lemma appends_raise P {A} e : appends P (raise e : M World A).
Proof. intros st r st' [= <- <-]. exists []. by rewrite app_nil_r. Qed.

Lemma appends_lift P {A} (r : result A) : appends P (lift r : M World A).
Proof. intros st r' st' [= <- <-]. exists []. by rewrite app_nil_r. Qed.

Lemma appends_read P {A} (f : World → A) : appends P (read f).
Proof. intros st r st' [= <- <-]. exists []. by rewrite app_nil_r. Qed.

Lemma appends_call P {A} (f : World → result A * World) : appends P (call f).
Proof.
  intros st r st'. unfold call. destruct (f (world st)) as [r0 w].
  intros [= <- <-]. exists []. by rewrite app_nil_r.
Qed.

Lemma appends_log P e : P e = true → appends P (log e : M World unit).
Proof. intros He st r st' [= <- <-]. exists [e]. split; [done|by constructor]. Qed.

Lemma appends_bind P {A B} (m : M World A) (k : A → M World B) :
  appends P m → (∀ a, appends P (k a)) → appends P (m ≫= k).
Proof.
  intros Hm Hk st r st'. unfold mbind, M_bind, bind.
  destruct (m st) as [[a|e] st1] eqn:Hrun.
  - intros Hrun2. destruct (Hm _ _ _ Hrun) as (ev1 & Ht1 & H1).
    destruct (Hk a _ _ _ Hrun2) as (ev2 & Ht2 & H2).
    exists (ev1 ++ ev2). split; [by rewrite Ht2, Ht1, app_assoc|].
    by apply Forall_app.
  - intros [= <- <-]. by eapply Hm.
Qed.

Lemma appends_fmap P {A B} (f : A → B) (m : M World A) :
  appends P m → appends P (f <$> m).
Proof. intros Hm. apply appends_bind; [done|]. intros a. apply appends_ret. Qed.

Lemma appends_try_except P {A} (m : M World A) handler :
  appends P m → (∀ e, appends P (handler e)) → appends P (try_except m handler).
Proof.
  intros Hm Hh st r st'. unfold try_except.
  destruct (m st) as [[a|e] st1] eqn:Hrun.
  - intros [= <- <-]. by eapply Hm.
  - intros Hrun2. destruct (Hm _ _ _ Hrun) as (ev1 & Ht1 & H1).
    destruct (Hh e _ _ _ Hrun2) as (ev2 & Ht2 & H2).
    exists (ev1 ++ ev2). split; [by rewrite Ht2, Ht1, app_assoc|].
    by apply Forall_app.
Qed.

Lemma appends_finally P {A} (m : M World A) cleanup :
  appends P m → appends P cleanup → appends P (finally m cleanup).
Proof.
  intros Hm Hc st r st'. unfold finally.
  destruct (m st) as [r0 st1] eqn:Hrun.
  destruct (cleanup st1) as [[[]|e] st2] eqn:Hrun2; intros [= <- <-];
    destruct (Hm _ _ _ Hrun) as (ev1 & Ht1 & H1);
    destruct (Hc _ _ _ Hrun2) as (ev2 & Ht2 & H2);
    exists (ev1 ++ ev2); (split; [by rewrite Ht2, Ht1, app_assoc|]);
    by apply Forall_app.
Qed.

Lemma appends_spawn P t : appends P (spawn t : M World unit).
Proof. intros st r st' [= <- <-]. exists []. by rewrite app_nil_r. Qed.

Lemma appends_set_requester P o :
  appends P (set_requester o : M World unit).
Proof. intros st r st' [= <- <-]. exists []. by rewrite app_nil_r. Qed.

Lemma appends_impl (P Q : event → bool) {A} (m : M World A) :
  (∀ e, P e = true → Q e = true) → appends P m → appends Q m.
Proof.
  intros HPQ Hm st r st' Hrun. destruct (Hm _ _ _ Hrun) as (ev & Ht & Hf).
  exists ev. split; [done|]. eapply Forall_impl; [exact Hf|]. apply HPQ.
Qed.
End appends_facts.

Ltac appends_step :=
  first
    [ apply appends_ret | apply appends_raise | apply appends_lift
    | apply appends_read | apply appends_call
    | apply appends_log; reflexivity
    | apply appends_fmap
    | apply appends_bind; [|intros ?]
    | apply appends_try_except; [|intros ?]
    | apply appends_finally
    | apply appends_spawn | apply appends_set_requester
    | match goal with
      | |- appends _ (match ?x with _ => _ end) => destruct x
      end ].

Section servlet_facts.
Context `{Imports} {World : Type} `{HomeServer World}.

Lemma reset_retry_timings_appends self origin :
  appends auth_event (reset_retry_timings self origin : M World unit).
Proof. unfold reset_retry_timings. repeat appends_step. Qed.

Lemma run_in_background_appends self t :
  appends auth_event (run_in_background self t : M World unit).
Proof.
  unfold run_in_background. repeat appends_step.
  destruct t. apply reset_retry_timings_appends.
Qed.

Lemma authenticate_request_appends self request content :
  appends auth_event (authenticate_request self request content : M World str).
Proof.
  unfold authenticate_request. repeat appends_step.
Qed.

Lemma with_span_run {A} (s : span) (body : M World A) st :
  with_span s body st =
  let '(r, st') := body (push (SpanEnter s) st) in (r, push (SpanExit s) st').
Proof.
  unfold with_span. munfold. by destruct (body (push (SpanEnter s) st)) as [[a|e] st'].
Qed.


(** What the first part of the callback leaves in the trace. *)
Lemma authenticate_stage_trace self request st r st' :
  authenticate_stage self request st = (r, st') →
  (is_raise r = true ∧ trace st' = trace st)
  ∨ ∃ auth_events,
      Forall (fun e => auth_event e = true) auth_events
      ∧ trace st' =
          trace st ++ [SpanEnter authenticate_span] ++ auth_events
            ++ [SpanExit authenticate_span].
Proof.
  set (body := fun content : option JsonDict =>
         @try_except World _
           (with_span authenticate_span
              (Some <$> authenticate_request (authenticator self) request content))
           (fun e =>
              if is_NoAuthenticationError e then
                if REQUIRE_AUTH self then raise e else mret None
              else raise e)).
  assert (Hbody : ∀ content s0 r0 s1, body content s0 = (r0, s1) →
            ∃ auth_events,
              Forall (fun e => auth_event e = true) auth_events
              ∧ trace s1 = trace s0 ++ [SpanEnter authenticate_span] ++ auth_events
                             ++ [SpanExit authenticate_span]).
  { intros content s0 r0 s1. unfold body, try_except. rewrite with_span_run.
    destruct ((Some <$> authenticate_request (authenticator self) request content)
                (push (SpanEnter authenticate_span) s0)) as [r1 s2] eqn:Hrun.
    assert (∃ auth_events,
              Forall (fun e => auth_event e = true) auth_events
              ∧ trace (push (SpanExit authenticate_span) s2)
                = trace s0 ++ [SpanEnter authenticate_span] ++ auth_events
                    ++ [SpanExit authenticate_span]) as (ev & Hev & Htr).
    { pose proof (appends_fmap auth_event Some _
                    (authenticate_request_appends (authenticator self) request content))
        as Hap.
      destruct (Hap _ _ _ Hrun) as (ev & Ht & Hf).
      exists ev. split; [done|]. simpl. rewrite Ht. simpl.
      by rewrite <- !app_assoc. }
    destruct r1 as [o|e]; simpl.
    - intros [= <- <-]. eauto.
    - unfold raise, mret, M_ret, ret.
      destruct (is_NoAuthenticationError e); [destruct (REQUIRE_AUTH self)|];
        intros [= <- <-]; eauto. }
  change (authenticate_stage self request) with
    (content ←
       (if bool_decide (method request ∈ [octets "PUT"; octets "POST"])
        then Some <$> lift (parse_json_object_from_request request)
        else mret None);
     origin ← body content;
     (mret (content, origin) : M World _)).
  munfold.
  destruct (bool_decide (method request ∈ [octets "PUT"; octets "POST"])).
  - destruct (parse_json_object_from_request request) as [c|e]; simpl.
    + destruct (body (Some c) st) as [[o|e] s1] eqn:Hb; intros [= <- <-];
        right; by eapply Hbody.
    + intros [= <- <-]. by left.
  - destruct (body None st) as [[o|e] s1] eqn:Hb; intros [= <- <-];
      right; by eapply Hbody.
Qed.

Lemma new_func_run self func request kwargs st :
  new_func self func request kwargs st =
  match authenticate_stage self request st with
  | (Ok (content, origin), st1) =>
      let '(r, st2) :=
        handler_stage self func request kwargs content origin
          (push (SpanEnter (local_parent_span request origin))
             (push (SpanEnter (remote_parent_span request origin))
                (push (SetAttribute (text "authenticated_entity") (str_of origin))
                   st1))) in
      (r, push (SpanExit (remote_parent_span request origin))
            (push (SpanExit (local_parent_span request origin)) st2))
  | (Raise e, st1) => (Raise e, st1)
  end.
Proof.
  unfold new_func. unfold mbind at 1. unfold M_bind, bind.
  destruct (authenticate_stage self request st) as [[[content origin]|e] st1];
    [|done].
  unfold mbind, M_bind, bind, log. rewrite !with_span_run.
  by destruct (handler_stage _ _ _ _ _ _ _) as [r st2].
Qed.




Lemma handler_calls_app l1 l2 :
  handler_calls (l1 ++ l2) = (handler_calls l1 + handler_calls l2)%nat.
Proof. unfold handler_calls. by rewrite List.filter_app, length_app. Qed.

Lemma handler_calls_auth_events events :
  Forall (fun e => auth_event e = true) events → handler_calls events = 0%nat.
Proof.
  unfold handler_calls. induction 1 as [|e l He _ IH]; [done|].
  simpl. by destruct e.
Qed.

(** C5.  When the request was authenticated for a non-empty origin, the
    servlet is rate limited, admission is granted and the client is found
    disconnected right after it, the callback returns [None]; after
    authentication the trace holds the two spans and the rate limiter's
    context and no call of the handler. *)
Theorem disconnected_client_skips_handler self func request kwargs st content
    origin st1 w1 w2 :
  authenticate_stage self request st = (Ok (content, Some origin), st1) →
  origin ≠ [] →
  RATELIMIT self = true →
  ratelimit_enter origin (world st1) = (Ok tt, w1) →
  ratelimit_wait origin w1 = (Ok tt, w2) →
  request_disconnected w2 = true →
  ∃ st',
    new_func self func request kwargs st = (Ok None, st')
    ∧ trace st' =
        trace st1
          ++ [SetAttribute (text "authenticated_entity") origin;
              SpanEnter (remote_parent_span request (Some origin));
              SpanEnter (local_parent_span request (Some origin));
              RatelimitEnter origin; RatelimitWait origin; RatelimitExit origin;
              SpanExit (local_parent_span request (Some origin));
              SpanExit (remote_parent_span request (Some origin))]
    ∧ handler_calls (trace st') = handler_calls (trace st)
    ∧ world st' = ratelimit_exit origin w2.
Proof.
  intros Hauth Hne Hrl He Hw Hd. rewrite new_func_run, Hauth.
  assert (truthy (Some origin) = true) as Ht by by destruct origin.
  unfold handler_stage, with_ratelimit. rewrite Ht, Hrl. simpl. munfold.
  unfold push. simpl. rewrite He. simpl. rewrite Hw. simpl. rewrite Hd. simpl.
  eexists. split; [done|]. simpl. split.
  { by rewrite <- !app_assoc. }
  split; [|done].
  rewrite <- !app_assoc. simpl.
  destruct (authenticate_stage_trace _ _ _ _ _ Hauth)
    as [[? _] | (auth_events & Hev & Htr)]; [discriminate|].
  rewrite Htr, !handler_calls_app, (handler_calls_auth_events _ Hev).
  simpl. unfold handler_calls. simpl. lia.
Qed.

(** *** Registration *)

Lemma register_methods_ok self pattern methods server :
  (∀ m code, m ∈ methods → getattr_on self m = Some code →
             cancellable code = false) →
  register_methods self pattern methods server
  = (Ok tt,
     server ++ ((fun mh : string * Handler World =>
                   {| route_method := mh.1;
                      route_patterns := [pattern];
                      route_callback := _wrap self mh.2;
                      route_servlet_classname := class_name self |})
                <$> omap (fun m => pair m <$> getattr_on self m) methods)).
Proof.
  revert server. induction methods as [|m rest IH]; intros server Hc; simpl.
  - by rewrite app_nil_r.
  - destruct (getattr_on self m) as [code|] eqn:Hg; simpl.
    + rewrite (Hc m code) by (done || by left).
      rewrite IH by (intros m' c' Hin; apply Hc; by right).
      by rewrite <- app_assoc.
    + apply IH. intros m' c' Hin. apply Hc. by right.
Qed.

Lemma register_methods_cancellable self pattern methods server m code :
  m ∈ methods → getattr_on self m = Some code → cancellable code = true →
  ∃ m' code' server',
    register_methods self pattern methods server
    = (Raise (Exception (cancellable_message self m')), server')
    ∧ m' ∈ methods ∧ getattr_on self m' = Some code'
    ∧ cancellable code' = true.
Proof.
  intros Hin Hg Hc. revert server.
  induction Hin as [m rest | m m0 rest Hin IH]; intros server; simpl.
  - rewrite Hg, Hc. exists m, code, server. repeat split; try done. by left.
  - destruct (getattr_on self m0) as [code0|] eqn:Hg0.
    + destruct (cancellable code0) eqn:Hc0.
      * exists m0, code0, server. repeat split; try done. by left.
      * match goal with
        | |- context [register_methods _ _ _ ?s] =>
            destruct (IH Hg s) as (m' & c' & s' & Hr & Hin' & ? & ?)
        end.
        exists m', c', s'. repeat split; try done. by right.
    + destruct (IH Hg server) as (m' & c' & s' & Hr & Hin' & ? & ?).
      exists m', c', s'. repeat split; try done. by right.
Qed.

Lemma elem_of_implemented (self : BaseFederationServlet World) m code :
  (m, code) ∈ implemented self
  ↔ m ∈ ["GET"; "PUT"; "POST"]%string ∧ getattr_on self m = Some code.
Proof.
  unfold implemented. rewrite list_elem_of_omap. split.
  - intros (m' & Hin & Heq). destruct (getattr_on self m') eqn:Hg; [|done].
    simpl in Heq. injection Heq as <- <-. done.
  - intros [Hin Hg]. exists m. split; [done|]. by rewrite Hg.
Qed.

(** C10.  [register] raises as soon as it meets a handler marked
    cancellable (or before, if the pattern does not compile); when no
    implemented method is cancellable and the anchored pattern
    [^ PREFIX PATH $] compiles, every implemented method is registered, in
    the order GET, PUT, POST, under that pattern with the wrapped handler
    as callback. *)
Theorem register_binds_or_rejects self server :
  ((∃ m code, (m, code) ∈ implemented self ∧ cancellable code = true) →
   ∃ e server',
     register self server = (Raise e, server')
     ∧ (re_valid (anchored_pattern self) = true →
        ∃ m code, (m, code) ∈ implemented self ∧ cancellable code = true
                  ∧ e = Exception (cancellable_message self m)))
  ∧ ((∀ m code, (m, code) ∈ implemented self → cancellable code = false) →
     re_valid (anchored_pattern self) = true →
     register self server
     = (Ok tt, server ++ (route_of self <$> implemented self))).
Proof.
  unfold register, re_compile. fold (anchored_pattern self). split.
  - intros (m & code & [Hin Hg]%elem_of_implemented & Hc).
    destruct (re_valid (anchored_pattern self)); [|by eexists _, _].
    destruct (register_methods_cancellable self (Compiled (anchored_pattern self))
                _ server m code Hin Hg Hc)
      as (m' & code' & server' & Hr & Hin' & Hg' & Hc').
    exists (Exception (cancellable_message self m')), server'.
    split; [done|]. intros _. exists m', code'.
    split; [by apply elem_of_implemented|]. done.
  - intros Hnone ->.
    rewrite register_methods_ok; [done|].
    intros m code Hin Hg. apply (Hnone m). by apply elem_of_implemented.
Qed.
End servlet_facts.

(** * Further properties *)

(** ** The header parser *)

Section parser_more.
Context `{Imports}.

(** X1.  [strip_quotes] undoes quoting, whatever the value holds (commas,
    spaces, quotes, backslashes), as long as every backslash of the value
    is escaped and no newline is. *)
Theorem strip_quotes_undoes_quote escaped value :
  escaped BACKSLASH = true → escaped NEWLINE = false →
  strip_quotes (quote escaped value) = value.
Proof.
  intros Hb Hn. unfold strip_quotes, quote, slice_1_m1. simpl.
  rewrite removelast_last. by apply unescape_escape.
Qed.

Lemma param_dict_of_snoc pairs kv :
  param_dict_of (pairs ++ [kv]) = <[lower kv.1 := kv.2]> (param_dict_of pairs).
Proof. unfold param_dict_of. by rewrite foldl_app. Qed.

(** X2.  When a parameter name occurs more than once (in any letter case)
    the last occurrence is the one the parser uses. *)
Theorem duplicate_parameter_last_wins (pairs : list (str * str)) (name : str) :
  param_dict_of pairs !! name
  = snd <$> last (List.filter (fun kv => bool_decide (lower kv.1 = name)) pairs).
Proof.
  induction pairs as [|kv pairs IH] using rev_ind; [done|].
  rewrite param_dict_of_snoc, List.filter_app. simpl.
  destruct (decide (lower kv.1 = name)) as [Heq|Hne].
  - rewrite bool_decide_eq_true_2 by done. rewrite last_snoc. simpl.
    subst name. by rewrite lookup_insert_eq.
  - rewrite bool_decide_eq_false_2 by done. rewrite app_nil_r.
    by rewrite lookup_insert_ne.
Qed.

(** *** Fields *)

Lemma re_split_spaces_space_run n rest :
  head rest ≠ Some SPACE →
  re_split_spaces (replicate (S n) SPACE ++ rest) = [] :: re_split_spaces rest.
Proof.
  intros Hh. induction n as [|n IH].
  - simpl. destruct rest as [|c r]; [done|].
    destruct (c =? SPACE)%N eqn:Hc; [|done].
    apply N.eqb_eq in Hc. subst. by destruct Hh.
  - change (replicate (S (S n)) SPACE ++ rest)
      with (SPACE :: (replicate (S n) SPACE ++ rest)).
    change (re_split_spaces (SPACE :: replicate (S n) SPACE ++ rest))
      with (re_split_spaces (replicate (S n) SPACE ++ rest)).
    exact IH.
Qed.

Lemma re_split_spaces_after_space rest :
  ∃ ps, re_split_spaces (SPACE :: rest) = [] :: ps.
Proof.
  induction rest as [|c r IH]; [by eexists|].
  change (re_split_spaces (SPACE :: c :: r))
    with (if (c =? SPACE)%N then re_split_spaces (c :: r)
          else [] :: re_split_spaces (c :: r)).
  destruct (c =? SPACE)%N eqn:Hc; [|by eexists].
  apply N.eqb_eq in Hc. by subst c.
Qed.

Lemma re_split_spaces_field field rest p ps :
  Forall (fun c => c ≠ SPACE) field →
  re_split_spaces rest = p :: ps →
  re_split_spaces (field ++ rest) = (field ++ p) :: ps.
Proof.
  intros Hf Hr. induction Hf as [|c field Hc _ IH]; simpl; [done|].
  apply N.eqb_neq in Hc. by rewrite Hc, IH.
Qed.

Lemma re_split_spaces_second scheme n params junk :
  Forall (fun c => c ≠ SPACE) scheme →
  Forall (fun c => c ≠ SPACE) params →
  params ≠ [] →
  re_split_spaces (scheme ++ replicate (S n) SPACE ++ params ++ trailing junk)
    !! 1%nat = Some params.
Proof.
  intros Hs Hp Hne.
  assert (∃ ps, re_split_spaces (params ++ trailing junk) = params :: ps)
    as [ps Hps].
  { destruct junk as [j|]; simpl trailing.
    - destruct (re_split_spaces_after_space j) as [ps Hj].
      exists ps. rewrite (re_split_spaces_field params _ _ _ Hp Hj).
      by rewrite app_nil_r.
    - rewrite app_nil_r. exists []. by apply re_split_spaces_no_space. }
  erewrite (re_split_spaces_field scheme); [|done|].
  2:{ rewrite re_split_spaces_space_run; [by rewrite Hps|].
      destruct Hp as [|c p Hc _]; [done|]. simpl. congruence. }
  done.
Qed.

(** X3.  Only the second space-separated field of the value is read: the
    scheme token in front of it, the number of spaces after the scheme and
    any text after a further space make no difference. *)
Theorem parse_reads_second_field header1 header2 scheme1 scheme2 n1 n2 params
    junk1 junk2 :
  Forall (fun c => c ≠ SPACE) scheme1 →
  Forall (fun c => c ≠ SPACE) scheme2 →
  Forall (fun c => c ≠ SPACE) params →
  params ≠ [] →
  decode_utf8 header1
    = Ok (scheme1 ++ replicate (S n1) SPACE ++ params ++ trailing junk1) →
  decode_utf8 header2
    = Ok (scheme2 ++ replicate (S n2) SPACE ++ params ++ trailing junk2) →
  _parse_auth_header header1 = _parse_auth_header header2.
Proof.
  intros Hs1 Hs2 Hp Hne Hd1 Hd2.
  unfold _parse_auth_header, parse_auth_header_body, header_params.
  rewrite Hd1, Hd2. rsimpl.
  by rewrite !re_split_spaces_second.
Qed.

(** *** What the fields are made of *)

Lemma re_split_spaces_no_space_inside s :
  Forall (Forall (fun c => c ≠ SPACE)) (re_split_spaces s).
Proof.
  induction s as [|c r IH]; simpl; [by repeat constructor|].
  destruct (c =? SPACE)%N eqn:Hc.
  - destruct r as [|c' r']; [by repeat constructor|].
    destruct (c' =? SPACE)%N; [done|by constructor].
  - apply N.eqb_neq in Hc.
    destruct (re_split_spaces r) as [|p ps]; [by repeat constructor|].
    inversion IH; subst. by repeat constructor.
Qed.

Lemma Forall_split (P : N → Prop) sep s :
  Forall P s → Forall (Forall P) (split sep s).
Proof.
  induction 1 as [|c r Hc Hr IH]; simpl; [by repeat constructor|].
  destruct (c =? sep)%N; [by constructor|].
  destruct (split sep r) as [|p ps]; [by repeat constructor|].
  inversion IH; subst. by repeat constructor.
Qed.

Lemma split_no_sep_inside sep s :
  Forall (Forall (fun c => c ≠ sep)) (split sep s).
Proof.
  induction s as [|c r IH]; simpl; [by repeat constructor|].
  destruct (c =? sep)%N eqn:Hc; [by constructor|].
  apply N.eqb_neq in Hc.
  destruct (split sep r) as [|p ps]; [by repeat constructor|].
  inversion IH; subst. by repeat constructor.
Qed.

Lemma split_once_Some sep s k v :
  split_once sep s = Some (k, v) → s = k ++ sep :: v.
Proof.
  revert k. induction s as [|c r IH]; intros k; simpl; [discriminate|].
  destruct (c =? sep)%N eqn:Hc.
  - apply N.eqb_eq in Hc. by intros [= <- <-]; subst.
  - destruct (split_once sep r) as [[k' v']|]; simpl; [|discriminate].
    intros [= <- <-]. simpl. f_equal. by apply IH.
Qed.

Lemma mapM_unpack_values (P : N → Prop) params pairs :
  Forall (Forall P) params →
  mapM unpack_key_value params = Ok pairs →
  Forall (fun kv => Forall P kv.2) pairs.
Proof.
  intros Hall. revert pairs. induction Hall as [|p params Hp _ IH]; intros pairs.
  - by intros [= <-].
  - change (mapM unpack_key_value (p :: params)) with
      (y ← unpack_key_value p; k ← mapM unpack_key_value params; mret (y :: k)).
    destruct (unpack_key_value p) as [[k v]|e0] eqn:Hu; rsimpl; [|discriminate].
    destruct (mapM unpack_key_value params) as [l|e]; rsimpl; [|discriminate].
    intros [= <-]. constructor; [|by apply IH].
    unfold unpack_key_value in Hu.
    destruct (split_once EQUALS p) as [kv|] eqn:Hs; [|discriminate].
    injection Hu as ->.
    apply split_once_Some in Hs. subst p. simpl.
    apply Forall_app in Hp as [_ Hp]. by inversion Hp.
Qed.

Lemma param_dict_of_values (P : str → Prop) pairs name value :
  Forall (fun kv => P kv.2) pairs →
  param_dict_of pairs !! name = Some value → P value.
Proof.
  induction pairs as [|kv pairs IH] using rev_ind; [done|].
  intros [Hp Hkv]%Forall_app. rewrite param_dict_of_snoc.
  destruct (decide (lower kv.1 = name)) as [<-|Hne].
  - rewrite lookup_insert_eq. intros [= <-]. by inversion Hkv.
  - rewrite lookup_insert_ne by done. by apply IH.
Qed.

Lemma Forall_unescape (P : N → Prop) s : Forall P s → Forall P (unescape s).
Proof.
  enough (Hboth : (Forall P s → Forall P (unescape s))
                  ∧ (∀ c, P c → Forall P s → Forall P (unescape (c :: s))))
    by apply Hboth.
  induction s as [|d r [IH1 IH2]].
  - split; [done|]. intros c Hc _. simpl. destruct (c =? BACKSLASH)%N; by constructor.
  - split.
    + intros Hs. inversion Hs; subst. by apply IH2.
    + intros c Hc Hs. inversion Hs as [|?? Hd Hr]; subst.
      change (unescape (c :: d :: r)) with
        (if (c =? BACKSLASH)%N
         then if (d =? NEWLINE)%N then c :: unescape (d :: r) else d :: unescape r
         else c :: unescape (d :: r)).
      destruct (c =? BACKSLASH)%N; [destruct (d =? NEWLINE)%N|];
        constructor; auto.
Qed.

Lemma Forall_strip_quotes (P : N → Prop) s : Forall P s → Forall P (strip_quotes s).
Proof.
  intros Hs. unfold strip_quotes. destruct s as [|c r]; [done|].
  destruct (c =? QUOTE)%N; [|done].
  apply Forall_unescape. unfold slice_1_m1. simpl.
  inversion Hs as [|?? _ Hr]; subst. clear Hs.
  induction Hr as [|d r Hd Hr IH]; [done|]. simpl.
  destruct r; [done|]. by constructor.
Qed.

(** X4.  No field of a successfully parsed header holds a space or a comma:
    the value is cut at spaces and commas before any quote is read. *)
Theorem parsed_fields_hold_no_separator header_bytes origin key sig destination :
  _parse_auth_header header_bytes = Ok (origin, key, sig, destination) →
  no_separator origin = true ∧ no_separator key = true
  ∧ no_separator sig = true
  ∧ from_option no_separator true destination = true.
Proof.
  set (P := fun c : N => c ≠ SPACE ∧ c ≠ COMMA).
  assert (HP : ∀ s, Forall P s → no_separator s = true).
  { intros s. unfold no_separator. induction 1 as [|c r [H1 H2] _ IH]; [done|].
    simpl. apply N.eqb_neq in H1, H2. by rewrite H1, H2, IH. }
  unfold _parse_auth_header, parse_auth_header_body, getitem, header_params.
  destruct (decode_utf8 header_bytes) as [s|]; rsimpl; [|discriminate].
  destruct (re_split_spaces s !! 1%nat) as [params|] eqn:Hs; rsimpl; [|discriminate].
  destruct (mapM unpack_key_value (split COMMA params)) as [pairs|] eqn:Hm;
    rsimpl; [|discriminate].
  assert (Forall (fun kv : str * str => Forall P kv.2) pairs) as Hpairs.
  { eapply mapM_unpack_values; [|exact Hm].
    assert (Forall (fun c => c ≠ SPACE) params) as Hsp.
    { pose proof (re_split_spaces_no_space_inside s) as Hall.
      rewrite Forall_lookup in Hall. by eapply Hall. }
    pose proof (Forall_split _ COMMA _ Hsp) as H1.
    pose proof (split_no_sep_inside COMMA params) as H2.
    rewrite Forall_lookup in H1, H2 |- *. intros i p Hi.
    specialize (H1 i p Hi). specialize (H2 i p Hi).
    rewrite Forall_lookup in H1, H2 |- *. intros j c Hj. split; eauto. }
  assert (Hv : ∀ name value, param_dict_of pairs !! name = Some value →
                no_separator (strip_quotes value) = true).
  { intros name value Hl. apply HP, Forall_strip_quotes.
    by eapply (param_dict_of_values (Forall P)). }
  destruct (param_dict_of pairs !! text "origin") as [o|] eqn:Ho; rsimpl;
    [|discriminate].
  destruct (parse_and_validate_server_name (strip_quotes o)); rsimpl;
    [|discriminate].
  destruct (param_dict_of pairs !! text "key") as [k|] eqn:Hk; rsimpl;
    [|discriminate].
  destruct (param_dict_of pairs !! text "sig") as [g|] eqn:Hg; rsimpl;
    [|discriminate].
  intros [= <- <- <- <-].
  split; [by eapply Hv|]. split; [by eapply Hv|]. split; [by eapply Hv|].
  destruct (param_dict_of pairs !! text "destination") as [d|] eqn:Hd; simpl;
    [by eapply Hv|done].
Qed.
End parser_more.

(** ** The authenticator, further *)

Section authenticator_more.
Context `{Imports} {World : Type} `{HomeServer World}.
Variable self : Authenticator.

Lemma parse_auth_header_valid_origin auth origin key sig destination :
  _parse_auth_header auth = Ok (origin, key, sig, destination) →
  parse_and_validate_server_name origin = Ok tt.
Proof.
  unfold _parse_auth_header, parse_auth_header_body.
  destruct (header_params auth) as [d|e]; rsimpl; [|discriminate].
  destruct (getitem d (text "origin")) as [o|e]; rsimpl; [|discriminate].
  destruct (parse_and_validate_server_name (strip_quotes o)) as [[]|e] eqn:Hv;
    rsimpl; [|discriminate].
  destruct (getitem d (text "key")) as [k|e]; rsimpl; [|discriminate].
  destruct (getitem d (text "sig")) as [s|e]; rsimpl; [|discriminate].
  by intros [= <- _ _ _].
Qed.

(** What an [X-Matrix] entry that gets past the loop does to the
    accumulator. *)
Lemma auth_header_step_x_matrix acc auth acc' :
  startswith (octets "X-Matrix") auth = true →
  auth_header_step self acc auth = Ok acc' →
  ∃ origin key sig destination,
    _parse_auth_header auth = Ok (origin, key, sig, destination)
    ∧ acc' = (Some origin, add_signature origin key sig acc.2).
Proof.
  intros Hs. unfold auth_header_step. rewrite Hs.
  destruct (_parse_auth_header auth) as [[[[o k] s] d]|e0]; rsimpl; [|discriminate].
  intros Hacc. exists o, k, s, d. split; [done|].
  destruct d as [d|]; [|congruence].
  destruct (bool_decide (d ≠ server_name self)); [discriminate|congruence].
Qed.

Lemma auth_header_step_invariant content acc auth acc' :
  loop_invariant self content acc → auth_header_step self acc auth = Ok acc' →
  loop_invariant self content acc'.
Proof.
  intros (Hd & Hc & Ho) Hstep.
  destruct (startswith (octets "X-Matrix") auth) eqn:Hs.
  - destruct (auth_header_step_x_matrix _ _ _ Hs Hstep)
      as (o & k & s & d & Hp & ->).
    split; [done|]. split; [done|]. intros o' [= <-]. simpl.
    split; [by eapply parse_auth_header_valid_origin|]. split; [done|].
    rewrite lookup_insert_eq. eauto.
  - rewrite auth_header_step_other in Hstep by done.
    injection Hstep as <-. done.
Qed.

Lemma auth_header_loop_invariant content auth_headers acc acc' :
  loop_invariant self content acc → auth_header_loop self auth_headers acc = Ok acc' →
  loop_invariant self content acc'.
Proof.
  revert acc. induction auth_headers as [|auth rest IH]; intros acc Hacc.
  - by intros [= <-].
  - rewrite auth_header_loop_cons.
    destruct (auth_header_step self acc auth) as [acc1|e0] eqn:Hstep; rsimpl;
      [|discriminate].
    apply IH. by eapply auth_header_step_invariant.
Qed.

(** The repair task always ends normally and leaves store and notifier
    events only. *)
Lemma reset_retry_timings_after_keyring origin st :
  ∃ st' events,
    reset_retry_timings self origin st = (Ok tt, st')
    ∧ trace st' = trace st ++ events
    ∧ Forall (fun e => after_keyring_event e = true) events
    ∧ requester st' = requester st
    ∧ (replication_client self = false →
       Forall (fun e => is_replication_send e = false) events).
Proof.
  unfold reset_retry_timings. munfold. unfold push. simpl.
  destruct (set_destination_retry_timings origin None 0 0 (world st))
    as [[[]|e1] w1]; simpl.
  2:{ eexists _, [_]. repeat split; try done; by repeat constructor. }
  destruct (notify_remote_server_up origin w1) as [[[]|e2] w2]; simpl.
  2:{ eexists _, [_; _]. simpl. rewrite <- app_assoc.
      repeat split; try done; by repeat constructor. }
  destruct (replication_client self); simpl.
  2:{ eexists _, [_; _]. simpl. rewrite <- app_assoc.
      repeat split; try done; by repeat constructor. }
  destruct (send_remote_server_up origin w2) as [[[]|e3] w3]; simpl.
  all: eexists _, [_; _; _]; simpl; rewrite <- !app_assoc;
    repeat split; try done; by repeat constructor.
Qed.

Lemma authenticate_request_reaches request content st origin json_request :
  reaches_keyring self request content origin json_request →
  authenticate_request self request content st
  = verified_part self origin json_request (time_msec (world st)) st.
Proof.
  intros (m & u & hs & Hm & Hu & Ha & Hl & Hw).
  pose proof (auth_header_loop_signatures _ _ _ _ _ Hl) as Hsig.
  unfold authenticate_request, verified_part. munfold.
  rewrite Hm, Hu, Ha. destruct hs as [|a l]; [discriminate|].
  rewrite Hl.
  assert (match federation_domain_whitelist self with
          | Some whitelist => not_in_whitelist (Some origin) whitelist
          | None => false
          end = false) as ->.
  { destruct (federation_domain_whitelist self) as [wl|] eqn:Hwl; [|done].
    unfold not_in_whitelist. apply bool_decide_eq_false_2.
    intros Hn. by apply Hn, Hw. }
  by rewrite bool_decide_eq_false_2.
Qed.

(** Before the keyring: the request fails with the state untouched, or it
    reaches the keyring. *)
Lemma authenticate_request_early request content st :
  (∃ e, authenticate_request self request content st = (Raise e, st)
        ∧ (e ∈ [UnicodeDecodeError; malformed_header; destination_mismatch;
                missing_authorization]
           ∨ ∃ o, e = FederationDeniedError o))
  ∨ ∃ origin json_request,
      reaches_keyring self request content origin json_request.
Proof.
  destruct (decode_ascii (method request)) as [m|e1] eqn:Hm.
  2:{ left. exists e1. split.
      - unfold authenticate_request. munfold. by rewrite Hm.
      - apply decode_ascii_raise in Hm as ->. left. set_solver. }
  destruct (decode_ascii (uri request)) as [u|e1] eqn:Hu.
  2:{ left. exists e1. split.
      - unfold authenticate_request. munfold. by rewrite Hm, Hu.
      - apply decode_ascii_raise in Hu as ->. left. set_solver. }
  destruct (authorization request) as [[|a l]|] eqn:Ha.
  1,3: left; exists missing_authorization; split;
    [unfold authenticate_request; munfold; by rewrite Hm, Hu, Ha
    |left; set_solver].
  destruct (auth_header_loop self (a :: l)
              (None, initial_json_request self m u content))
    as [[o jr]|e1] eqn:Hl.
  2:{ left. exists e1. split.
      - by eapply authenticate_request_loop_raise.
      - left. destruct (auth_header_loop_raise _ _ _ _ Hl) as [-> | ->];
          set_solver. }
  destruct (match federation_domain_whitelist self with
            | Some whitelist => not_in_whitelist o whitelist
            | None => false
            end) eqn:Hwl.
  { left. exists (FederationDeniedError o). split; [|right; eauto].
    unfold authenticate_request. munfold. by rewrite Hm, Hu, Ha, Hl, Hwl. }
  destruct o as [o|].
  2:{ left. exists missing_authorization. split; [|left; set_solver].
      unfold authenticate_request. munfold. by rewrite Hm, Hu, Ha, Hl, Hwl. }
  right. exists o, jr, m, u, (a :: l). repeat split; try done.
  intros wl Hwl'. rewrite Hwl' in Hwl. unfold not_in_whitelist in Hwl.
  apply bool_decide_eq_false in Hwl. by apply dec_stable.
Qed.

(** X5.  Without an [Authorization] header, or with an empty list of
    values, a request whose method and URI are ASCII fails with the 401
    [NoAuthenticationError], whether or not a whitelist is configured, and
    the state is untouched. *)
Theorem missing_authorization_header request content st :
  is_raise (decode_ascii (method request)) = false →
  is_raise (decode_ascii (uri request)) = false →
  authorization request = None ∨ authorization request = Some [] →
  authenticate_request self request content st
  = (Raise missing_authorization, st)
  ∧ is_NoAuthenticationError missing_authorization = true.
Proof.
  intros Hm Hu Ha. split; [|done]. unfold authenticate_request. munfold.
  destruct (decode_ascii (method request)); [|discriminate].
  destruct (decode_ascii (uri request)); [|discriminate].
  by destruct Ha as [-> | ->].
Qed.

(** X6.  When the keyring rejects the request, its error is what
    [authenticate_request] raises: the requester is not set, the store is
    not read and no task is started. *)
Theorem verification_failure_propagates request content st origin json_request
    e w1 :
  reaches_keyring self request content origin json_request →
  verify_json_for_server origin json_request (time_msec (world st)) (world st)
    = (Raise e, w1) →
  authenticate_request self request content st
  = (Raise e,
     {| world := w1; requester := requester st;
        trace := trace st
                 ++ [VerifyJsonForServer origin json_request
                       (time_msec (world st))];
        background := background st |}).
Proof.
  intros Hr Hv. rewrite (authenticate_request_reaches _ _ _ _ _ Hr).
  unfold verified_part. munfold. unfold push. simpl. by rewrite Hv.
Qed.

(** X7.  A verified origin with no retry record, or with one whose
    [retry_last_ts] is zero, is returned and set as requester; the keyring
    and the store are called once each and no task is started. *)
Theorem no_reset_without_failure_record request content st origin json_request
    w1 retry_timings w2 :
  reaches_keyring self request content origin json_request →
  verify_json_for_server origin json_request (time_msec (world st)) (world st)
    = (Ok tt, w1) →
  get_destination_retry_timings origin w1 = (Ok retry_timings, w2) →
  (∀ timings, retry_timings = Some timings → retry_last_ts timings = 0) →
  authenticate_request self request content st
  = (Ok origin,
     {| world := w2; requester := Some origin;
        trace := trace st
                 ++ [VerifyJsonForServer origin json_request
                       (time_msec (world st));
                     GetDestinationRetryTimings origin];
        background := background st |}).
Proof.
  intros Hr Hv Hg Hz. rewrite (authenticate_request_reaches _ _ _ _ _ Hr).
  unfold verified_part. munfold. unfold push. simpl. rewrite Hv. simpl.
  rewrite Hg. simpl. rewrite <- app_assoc. simpl.
  destruct retry_timings as [t|]; [|done].
  by rewrite bool_decide_eq_false_2 by (intros Hn; by apply Hn, Hz).
Qed.

(** X8.  When the store fails to read the retry timings of a verified
    origin, the request fails with the store's error although the requester
    is already set; no task is started. *)
Theorem store_failure_after_verification request content st origin json_request
    w1 e w2 :
  reaches_keyring self request content origin json_request →
  verify_json_for_server origin json_request (time_msec (world st)) (world st)
    = (Ok tt, w1) →
  get_destination_retry_timings origin w1 = (Raise e, w2) →
  authenticate_request self request content st
  = (Raise e,
     {| world := w2; requester := Some origin;
        trace := trace st
                 ++ [VerifyJsonForServer origin json_request
                       (time_msec (world st));
                     GetDestinationRetryTimings origin];
        background := background st |}).
Proof.
  intros Hr Hv Hg. rewrite (authenticate_request_reaches _ _ _ _ _ Hr).
  unfold verified_part. munfold. unfold push. simpl. rewrite Hv. simpl.
  rewrite Hg. simpl. by rewrite <- app_assoc.
Qed.

(** X9.  Every run of [authenticate_request] either fails before the
    keyring with the state untouched, with one of five errors, or calls
    the keyring exactly once, first of all, for an origin that is a valid
    server name and passes the whitelist, with a [json_request] whose
    destination is the local server, whose content is the one given, whose
    origin is that origin and which holds signatures of it.  Only the
    store, the repair task and its notifications come after the keyring
    call, and an origin is returned only as the requester and only when
    the keyring accepted the request. *)
Theorem authentication_outcome request content st :
  ∃ r st', authenticate_request self request content st = (r, st')
    ∧ ((∃ e, r = Raise e ∧ st' = st
             ∧ (e ∈ [UnicodeDecodeError; malformed_header; destination_mismatch;
                     missing_authorization]
                ∨ ∃ o, e = FederationDeniedError o))
       ∨ ∃ origin json_request events,
           reaches_keyring self request content origin json_request
           ∧ trace st' = trace st
               ++ VerifyJsonForServer origin json_request (time_msec (world st))
                  :: events
           ∧ Forall (fun e => after_keyring_event e = true) events
           ∧ parse_and_validate_server_name origin = Ok tt
           ∧ jr_destination json_request = server_name self
           ∧ jr_content json_request = content
           ∧ jr_origin json_request = Some origin
           ∧ is_Some (jr_signatures json_request !! origin)
           ∧ (is_raise r = true
              ∨ r = Ok origin ∧ requester st' = Some origin
                ∧ ∃ w1, verify_json_for_server origin json_request
                          (time_msec (world st)) (world st) = (Ok tt, w1))).
Proof.
  destruct (authenticate_request_early request content st)
    as [(e & He & Hcases) | (o & jr & Hr)].
  { exists (Raise e), st. split; [done|]. left. by exists e. }
  assert (loop_invariant self content (Some o, jr)) as (Hd & Hc & Ho).
  { destruct Hr as (m & u & hs & _ & _ & _ & Hl & _).
    eapply auth_header_loop_invariant; [|exact Hl].
    split; [done|]. split; [done|]. by intros ? [=]. }
  destruct (Ho o eq_refl) as (Hvalid & Horigin & Hsigs). simpl in *.
  rewrite (authenticate_request_reaches _ _ _ _ _ Hr).
  enough (∃ r st' events,
            verified_part self o jr (time_msec (world st)) st = (r, st')
            ∧ trace st' = trace st
                ++ VerifyJsonForServer o jr (time_msec (world st)) :: events
            ∧ Forall (fun e => after_keyring_event e = true) events
            ∧ (is_raise r = true
               ∨ r = Ok o ∧ requester st' = Some o
                 ∧ ∃ w1, verify_json_for_server o jr (time_msec (world st))
                           (world st) = (Ok tt, w1)))
    as (r & st' & events & Hrun & Htr & Hev & Hres).
  { exists r, st'. split; [done|]. right. exists o, jr, events.
    repeat split; done. }
  unfold verified_part, run_in_background, run_task. munfold. unfold push. simpl.
  destruct (verify_json_for_server o jr (time_msec (world st)) (world st))
    as [[[]|e1] w1] eqn:Hv; simpl.
  2:{ eexists _, _, []. split; [done|]. simpl. repeat split; try done. by left. }
  destruct (get_destination_retry_timings o w1) as [[t|e2] w2]; simpl.
  2:{ eexists _, _, [_]. split; [done|]. simpl. rewrite <- app_assoc. simpl.
      split; [done|]. split; [by repeat constructor|]. by left. }
  destruct t as [t|]; simpl.
  2:{ eexists _, _, [_]. split; [done|]. simpl. rewrite <- app_assoc. simpl.
      split; [done|]. split; [by repeat constructor|]. right. eauto. }
  destruct (bool_decide (retry_last_ts t ≠ 0)); simpl.
  2:{ eexists _, _, [_]. split; [done|]. simpl. rewrite <- app_assoc. simpl.
      split; [done|]. split; [by repeat constructor|]. right. eauto. }
  destruct (background_runs_first w2).
  - match goal with
    | |- context [reset_retry_timings self o ?s] =>
        destruct (reset_retry_timings_after_keyring o s)
          as (st1 & events & Hrun & Htr & Hev & Hrq & _);
        rewrite Hrun
    end.
    exists (Ok o), st1,
      (GetDestinationRetryTimings o :: RunInBackground (ResetRetryTimings o)
       :: events).
    split; [done|]. split.
    { rewrite Htr. simpl. by rewrite <- !app_assoc. }
    split; [by repeat (constructor; [done|])|].
    right. rewrite Hrq. eauto.
  - eexists _, _, [_; _]. split; [done|]. simpl. rewrite <- !app_assoc. simpl.
    split; [done|]. split; [by repeat constructor|]. right. eauto.
Qed.

(** X10.  [Authorization] values of other schemes play no part: the
    header loop gives the same result on the [X-Matrix] values alone. *)
Theorem other_schemes_ignored auth_headers acc :
  auth_header_loop self auth_headers acc
  = auth_header_loop self
      (List.filter (startswith (octets "X-Matrix")) auth_headers) acc.
Proof.
  revert acc. induction auth_headers as [|auth rest IH]; intros acc; [done|].
  cbn [List.filter]. destruct (startswith (octets "X-Matrix") auth) eqn:Hs.
  - rewrite !auth_header_loop_cons.
    destruct (auth_header_step self acc auth); rsimpl; [apply IH|done].
  - rewrite auth_header_loop_cons, auth_header_step_other by done. rsimpl.
    apply IH.
Qed.

Lemma signature_of_add_signature origin key sig jr o k :
  signature_of (add_signature origin key sig jr) o k
  = if bool_decide (origin = o ∧ key = k) then Some sig
    else signature_of jr o k.
Proof.
  unfold signature_of. simpl.
  destruct (decide (origin = o)) as [->|Hne].
  - rewrite lookup_insert_eq. simpl.
    destruct (decide (key = k)) as [->|Hnk].
    + rewrite lookup_insert_eq. by rewrite bool_decide_eq_true_2.
    + rewrite lookup_insert_ne by done.
      rewrite bool_decide_eq_false_2 by (by intros [_ ?]).
      by destruct (jr_signatures jr !! o).
  - rewrite lookup_insert_ne by done.
    by rewrite bool_decide_eq_false_2 by (by intros [? _]).
Qed.

Lemma last_signature_is_Some auth_headers o k sig :
  is_Some sig → is_Some (last_signature auth_headers o k sig).
Proof.
  revert sig. induction auth_headers as [|auth rest IH]; intros sig Hs; [done|].
  cbn [last_signature]. apply IH.
  destruct (startswith (octets "X-Matrix") auth); [|done].
  destruct (_parse_auth_header auth) as [[[[o1 k1] s1] d1]|e]; [|done].
  by destruct (bool_decide (o1 = o ∧ k1 = k)).
Qed.

(** X11.  When several [X-Matrix] entries get past the loop, the origin
    is that of the last one, and what the keyring is asked to verify
    holds, under each origin and key, the [sig] of the last entry with
    that origin and that key: entries of other origins or keys stay, an
    earlier entry with the same origin and key is overwritten.  No origin
    and key that had a signature loses it. *)
Theorem last_origin_wins auth_headers acc origin json_request :
  auth_header_loop self auth_headers acc = Ok (origin, json_request) →
  origin = last_origin auth_headers acc.1
  ∧ (∀ o k, signature_of json_request o k
            = last_signature auth_headers o k (signature_of acc.2 o k))
  ∧ ∀ o k, is_Some (signature_of acc.2 o k) →
           is_Some (signature_of json_request o k).
Proof.
  intros Hloop.
  enough (origin = last_origin auth_headers acc.1
          ∧ ∀ o k, signature_of json_request o k
                   = last_signature auth_headers o k (signature_of acc.2 o k))
    as [Ho Hsig].
  { split; [done|]. split; [done|]. intros o k Hs. rewrite Hsig.
    by apply last_signature_is_Some. }
  revert acc Hloop. induction auth_headers as [|auth rest IH]; intros acc.
  - by intros [= ->].
  - rewrite auth_header_loop_cons.
    destruct (auth_header_step self acc auth) as [acc1|e0] eqn:Hstep; rsimpl;
      [|discriminate].
    intros Hl. destruct (IH _ Hl) as (Ho & Hsig).
    cbn [last_origin last_signature].
    destruct (startswith (octets "X-Matrix") auth) eqn:Hs.
    + destruct (auth_header_step_x_matrix _ _ _ Hs Hstep)
        as (o1 & k1 & s1 & d1 & Hp & ->). rewrite Hp. cbn [fst snd] in *.
      split; [done|]. intros o k.
      by rewrite Hsig, signature_of_add_signature.
    + rewrite auth_header_step_other in Hstep by done. injection Hstep as <-.
      by split.
Qed.

(** X12.  [reset_retry_timings] always ends normally.  It writes the zero
    state; it notifies only when the write succeeded; it sends
    [REMOTE_SERVER_UP] only on a process with a replication client, and
    only when the notification succeeded.  A failure stops what follows
    and is swallowed. *)
Theorem reset_retry_timings_events origin st :
  ∃ st',
    reset_retry_timings self origin st = (Ok tt, st')
    ∧ requester st' = requester st
    ∧ background st' = background st
    ∧ trace st' = trace st ++
        SetDestinationRetryTimings origin None 0 0 ::
        match set_destination_retry_timings origin None 0 0 (world st) with
        | (Ok _, w1) =>
            NotifyRemoteServerUp origin ::
            match notify_remote_server_up origin w1 with
            | (Ok _, _) =>
                if replication_client self then [SendRemoteServerUp origin]
                else []
            | (Raise _, _) => []
            end
        | (Raise _, _) => []
        end.
Proof.
  unfold reset_retry_timings. munfold. unfold push. simpl.
  destruct (set_destination_retry_timings origin None 0 0 (world st))
    as [[[]|e1] w1]; simpl; [|by eexists].
  destruct (notify_remote_server_up origin w1) as [[[]|e2] w2]; simpl.
  2:{ eexists. repeat split; try done. simpl. by rewrite <- app_assoc. }
  destruct (replication_client self); simpl.
  2:{ eexists. repeat split; try done. simpl. by rewrite <- app_assoc. }
  destruct (send_remote_server_up origin w2) as [[[]|e3] w3]; simpl.
  all: eexists; repeat split; try done; simpl; by rewrite <- !app_assoc.
Qed.
End authenticator_more.

Section constructor_facts.
Context `{Imports} {World : Type} `{HomeServer World}.

(** X13.  An authenticator built for the main process, where [worker_app]
    is unset or empty, never sends [REMOTE_SERVER_UP] over replication,
    whatever request it authenticates. *)
Theorem main_process_never_replicates hs request content (st : state World) :
  truthy (worker_app hs) = false →
  ∃ r st' events,
    authenticate_request (Authenticator__init__ hs) request content st = (r, st')
    ∧ trace st' = trace st ++ events
    ∧ Forall (fun e => is_replication_send e = false) events.
Proof.
  intros Hw. set (self := Authenticator__init__ hs).
  assert (replication_client self = false) as Hrc by done.
  destruct (authenticate_request_early self request content st)
    as [(e & He & _) | (o & jr & Hr)].
  { exists (Raise e), st, []. by rewrite app_nil_r. }
  rewrite (authenticate_request_reaches _ _ _ _ _ _ Hr).
  unfold verified_part, run_in_background, run_task. munfold. unfold push. simpl.
  destruct (verify_json_for_server o jr (time_msec (world st)) (world st))
    as [[[]|e1] w1]; simpl.
  2:{ eexists _, _, [_]. split; [done|]. by repeat constructor. }
  destruct (get_destination_retry_timings o w1) as [[t|e2] w2]; simpl.
  2:{ eexists _, _, [_; _]. split; [done|]. simpl. rewrite <- app_assoc.
      by repeat constructor. }
  destruct t as [t|]; simpl.
  2:{ eexists _, _, [_; _]. split; [done|]. simpl. rewrite <- app_assoc.
      by repeat constructor. }
  destruct (bool_decide (retry_last_ts t ≠ 0)); simpl.
  2:{ eexists _, _, [_; _]. split; [done|]. simpl. rewrite <- app_assoc.
      by repeat constructor. }
  destruct (background_runs_first w2); simpl.
  2:{ eexists _, _, [_; _; _]. split; [done|]. simpl. rewrite <- !app_assoc.
      by repeat constructor. }
  match goal with
  | |- context [reset_retry_timings self o ?s] =>
      destruct (reset_retry_timings_after_keyring self o s)
        as (st1 & events & Hrun & Htr & _ & _ & Hev);
      rewrite Hrun
  end.
  eexists _, _, (_ :: _ :: _ :: events). split; [done|]. split.
  { rewrite Htr. simpl. by rewrite <- !app_assoc. }
  repeat (constructor; [done|]). by apply Hev.
Qed.
End constructor_facts.

(** ** Servlets, further *)

Section servlet_more.
Context `{Imports} {World : Type} `{HomeServer World}.

(** The first part of the callback, case by case. *)
Lemma authenticate_stage_run self request st :
  authenticate_stage self request st =
  match request_content request with
  | Ok content =>
      match authenticate_request (authenticator self) request content
              (push (SpanEnter authenticate_span) st) with
      | (Ok origin, st1) =>
          (Ok (content, Some origin), push (SpanExit authenticate_span) st1)
      | (Raise e, st1) =>
          if is_NoAuthenticationError e && negb (REQUIRE_AUTH self)
          then (Ok (content, None), push (SpanExit authenticate_span) st1)
          else (Raise e, push (SpanExit authenticate_span) st1)
      end
  | Raise e => (Raise e, st)
  end.
Proof.
  assert (Hbody : ∀ content,
    (origin ←
       try_except
         (with_span authenticate_span
            (Some <$> authenticate_request (authenticator self) request content))
         (fun e =>
            if is_NoAuthenticationError e then
              if REQUIRE_AUTH self then raise e else mret None
            else raise e);
     (mret (content, origin) : M World _)) st
    = match authenticate_request (authenticator self) request content
              (push (SpanEnter authenticate_span) st) with
      | (Ok origin, st1) =>
          (Ok (content, Some origin), push (SpanExit authenticate_span) st1)
      | (Raise e, st1) =>
          if is_NoAuthenticationError e && negb (REQUIRE_AUTH self)
          then (Ok (content, None), push (SpanExit authenticate_span) st1)
          else (Raise e, push (SpanExit authenticate_span) st1)
      end).
  { intros content. unfold mbind at 1. unfold M_bind, bind, try_except.
    rewrite with_span_run. unfold fmap, M_fmap, bind, ret.
    destruct (authenticate_request (authenticator self) request content
                (push (SpanEnter authenticate_span) st)) as [[o|e] st1]; [done|].
    by destruct (is_NoAuthenticationError e), (REQUIRE_AUTH self). }
  unfold authenticate_stage, request_content. unfold mbind at 1.
  unfold M_bind. unfold bind at 1.
  destruct (bool_decide (method request ∈ [octets "PUT"; octets "POST"])).
  - unfold fmap at 1. unfold M_fmap, bind, ret, lift.
    destruct (parse_json_object_from_request request) as [c|e]; rsimpl; [|done].
    apply Hbody.
  - apply Hbody.
Qed.

(** The block under the two spans when the rate limiter is not used. *)
Lemma handler_stage_unlimited self func request kwargs content origin st :
  truthy origin && RATELIMIT self = false →
  handler_stage self func request kwargs content origin st
  = let '(r, w) :=
      run_handler func origin content (args request) kwargs (world st) in
    (r, {| world := w; requester := requester st;
           trace := trace st ++ [CallHandler origin content (args request) kwargs];
           background := background st |}).
Proof.
  intros Hu. unfold handler_stage.
  assert (invoke func origin content request kwargs st
          = let '(r, w) :=
              run_handler func origin content (args request) kwargs (world st) in
            (r, {| world := w; requester := requester st;
                   trace := trace st
                            ++ [CallHandler origin content (args request) kwargs];
                   background := background st |})) as Hinvoke.
  { unfold invoke. munfold. unfold push. simpl.
    by destruct (run_handler func origin content (args request) kwargs (world st)). }
  destruct origin as [o|]; [|done]. by rewrite Hu.
Qed.

(** The shapes of what the block under the two spans leaves in the trace. *)
Lemma handler_stage_shape self func request kwargs content origin st r st' :
  handler_stage self func request kwargs content origin st = (r, st') →
  ∃ events,
    trace st' = trace st ++ events
    ∧ (events = [CallHandler origin content (args request) kwargs]
       ∨ ∃ o, origin = Some o
              ∧ events ∈ [[RatelimitEnter o];
                          [RatelimitEnter o; RatelimitWait o; RatelimitExit o];
                          [RatelimitEnter o; RatelimitWait o;
                           CallHandler origin content (args request) kwargs;
                           RatelimitExit o]]).
Proof.
  destruct (truthy origin && RATELIMIT self) eqn:Hl.
  2:{ rewrite handler_stage_unlimited by done.
      destruct (run_handler func origin content (args request) kwargs (world st)).
      intros [= <- <-]. eexists. split; [done|]. by left. }
  destruct origin as [o|]; [|done].
  unfold handler_stage, with_ratelimit, invoke. rewrite Hl. munfold.
  unfold push. simpl.
  destruct (ratelimit_enter o (world st)) as [[[]|e1] w1]; simpl.
  2:{ intros [= <- <-]. eexists. split; [done|]. right. exists o.
      split; [done|]. set_solver. }
  destruct (ratelimit_wait o w1) as [[[]|e2] w2]; simpl.
  2:{ intros [= <- <-]. eexists. simpl. rewrite <- !app_assoc.
      split; [done|]. right. exists o. split; [done|]. set_solver. }
  destruct (request_disconnected w2); simpl.
  { intros [= <- <-]. eexists. simpl. rewrite <- !app_assoc.
    split; [done|]. right. exists o. split; [done|]. set_solver. }
  destruct (run_handler func (Some o) content (args request) kwargs w2)
    as [r0 w3]; simpl.
  intros [= <- <-]. eexists. simpl. rewrite <- !app_assoc.
  split; [done|]. right. exists o. split; [done|]. set_solver.
Qed.

(** An origin comes out of [authenticate_request] only when the keyring
    accepted the request. *)
Lemma authenticate_request_Ok self request content (st : state World) origin st' :
  authenticate_request self request content st = (Ok origin, st') →
  ∃ json_request w1,
    reaches_keyring self request content origin json_request
    ∧ verify_json_for_server origin json_request (time_msec (world st)) (world st)
      = (Ok tt, w1).
Proof.
  destruct (authenticate_request_early self request content st)
    as [(e & He & _) | (o & jr & Hr)]; [congruence|].
  rewrite (authenticate_request_reaches _ _ _ _ _ _ Hr).
  unfold verified_part. munfold. unfold push. simpl.
  destruct (verify_json_for_server o jr (time_msec (world st)) (world st))
    as [[[]|e1] w1] eqn:Hv; simpl; [|discriminate].
  destruct (get_destination_retry_timings o w1) as [[t|e2] w2]; simpl;
    [|discriminate].
  assert (∀ (m : M World unit) s,
            match m s with
            | (Ok _, s') => (Ok o, s')
            | (Raise e, s') => (Raise e, s')
            end = (Ok origin, st') → o = origin) as Hlast.
  { intros m s. destruct (m s) as [[[]|e] s']; congruence. }
  intros Hrun. apply Hlast in Hrun as <-. eauto.
Qed.

(** What [authenticate_stage] guarantees when it hands on an origin. *)
Lemma authenticate_stage_Ok self request st content origin st1 :
  authenticate_stage self request st = (Ok (content, origin), st1) →
  request_content request = Ok content
  ∧ match origin with
    | Some o =>
        ∃ json_request w1,
          reaches_keyring (authenticator self) request content o json_request
          ∧ verify_json_for_server o json_request (time_msec (world st)) (world st)
            = (Ok tt, w1)
    | None => REQUIRE_AUTH self = false
    end.
Proof.
  rewrite authenticate_stage_run.
  destruct (request_content request) as [c|e]; [|discriminate].
  destruct (authenticate_request (authenticator self) request c
              (push (SpanEnter authenticate_span) st)) as [[o|e] s1] eqn:Hrun.
  - intros [= <- <- <-]. split; [done|].
    by apply authenticate_request_Ok in Hrun.
  - destruct (is_NoAuthenticationError e); simpl; [|discriminate].
    destruct (REQUIRE_AUTH self); simpl; [discriminate|].
    by intros [= <- <- <-].
Qed.

Lemma authenticate_stage_no_handler_call self request st r st1 :
  authenticate_stage self request st = (r, st1) →
  ∃ events, trace st1 = trace st ++ events
            ∧ Forall (fun e => handler_stage_event e = false) events.
Proof.
  intros Hrun.
  destruct (authenticate_stage_trace _ _ _ _ _ Hrun)
    as [[_ Htr] | (auth_events & Hev & Htr)].
  - exists []. by rewrite app_nil_r.
  - eexists. split; [exact Htr|].
    apply Forall_app. split; [by repeat constructor|].
    apply Forall_app. split; [|by repeat constructor].
    eapply Forall_impl; [exact Hev|]. intros e. by destruct e.
Qed.

(** X14.  When the body of a PUT or POST does not decode, the callback
    raises the decoder's error before anything else happens: no span, no
    authentication, no handler. *)
Theorem undecodable_body_stops_request self func request kwargs st e :
  request_content request = Raise e →
  new_func self func request kwargs st = (Raise e, st).
Proof.
  intros Hc. by rewrite new_func_run, authenticate_stage_run, Hc.
Qed.

(** X15.  An error of [authenticate_request] is raised again by the
    callback once the authentication span is closed, unless it is a
    [NoAuthenticationError] on a servlet that does not require
    authentication; neither of the two request spans is entered and the
    handler is not called. *)
Theorem authentication_error_propagates self func request kwargs st content
    e st1 :
  request_content request = Ok content →
  authenticate_request (authenticator self) request content
    (push (SpanEnter authenticate_span) st) = (Raise e, st1) →
  is_NoAuthenticationError e = false ∨ REQUIRE_AUTH self = true →
  new_func self func request kwargs st
  = (Raise e, push (SpanExit authenticate_span) st1).
Proof.
  intros Hc Hrun Hcase. rewrite new_func_run, authenticate_stage_run, Hc, Hrun.
  by destruct Hcase as [-> | ->]; rewrite ?andb_false_r.
Qed.

(** X16.  On a servlet that does not require authentication, a request
    that fails with a [NoAuthenticationError] is served all the same: the
    handler is called with no origin, outside the rate limiter and under a
    non-recording remote span, and its outcome is the callback's. *)
Theorem unauthenticated_request_served self func request kwargs st content
    e st1 :
  request_content request = Ok content →
  authenticate_request (authenticator self) request content
    (push (SpanEnter authenticate_span) st) = (Raise e, st1) →
  is_NoAuthenticationError e = true →
  REQUIRE_AUTH self = false →
  new_func self func request kwargs st
  = (let '(r, w) :=
       run_handler func None content (args request) kwargs (world st1) in
     (r, {| world := w; requester := requester st1;
            trace := trace st1 ++ SpanExit authenticate_span
                     :: unlimited_events request kwargs content None;
            background := background st1 |}))
  ∧ remote_parent_span request None = NonRecordingSpan.
Proof.
  intros Hc Hrun He Hr. split; [|done].
  rewrite new_func_run, authenticate_stage_run, Hc, Hrun, He, Hr. simpl andb.
  cbv iota. rewrite handler_stage_unlimited by done. unfold push. simpl.
  destruct (run_handler func None content (args request) kwargs (world st1)).
  unfold unlimited_events. simpl. by rewrite <- !app_assoc.
Qed.

(** X17.  For an authenticated origin on a servlet without rate limiting
    (or for an empty origin), the handler is called at once under the two
    spans and its outcome, result or error, is the callback's; the rate
    limiter is not touched. *)
Theorem unlimited_request_runs_handler self func request kwargs st content
    origin st1 :
  authenticate_stage self request st = (Ok (content, Some origin), st1) →
  RATELIMIT self = false ∨ origin = [] →
  new_func self func request kwargs st
  = let '(r, w) :=
      run_handler func (Some origin) content (args request) kwargs (world st1) in
    (r, {| world := w; requester := requester st1;
           trace := trace st1
                    ++ unlimited_events request kwargs content (Some origin);
           background := background st1 |}).
Proof.
  intros Hauth Hcase. rewrite new_func_run, Hauth.
  rewrite handler_stage_unlimited.
  2:{ destruct Hcase as [-> | ->]; [apply andb_false_r|done]. }
  unfold push. simpl.
  destruct (run_handler func (Some origin) content (args request) kwargs
              (world st1)).
  unfold unlimited_events. simpl. by rewrite <- !app_assoc.
Qed.

(** X18.  A request of a non-empty origin that the rate limiter admits,
    and whose client is still connected, reaches the handler inside the
    rate limiter's context; the handler's outcome, result or error, is the
    callback's, and the rate limiter's context is left before the two
    spans. *)
Theorem admitted_request_runs_handler self func request kwargs st content
    origin st1 w1 w2 :
  authenticate_stage self request st = (Ok (content, Some origin), st1) →
  origin ≠ [] →
  RATELIMIT self = true →
  ratelimit_enter origin (world st1) = (Ok tt, w1) →
  ratelimit_wait origin w1 = (Ok tt, w2) →
  request_disconnected w2 = false →
  new_func self func request kwargs st
  = let '(r, w3) :=
      run_handler func (Some origin) content (args request) kwargs w2 in
    (r, {| world := ratelimit_exit origin w3; requester := requester st1;
           trace := trace st1 ++ admitted_events request kwargs content origin;
           background := background st1 |}).
Proof.
  intros Hauth Hne Hrl He Hw Hd. rewrite new_func_run, Hauth.
  assert (truthy (Some origin) = true) as Ht by by destruct origin.
  unfold handler_stage, with_ratelimit, invoke. rewrite Ht, Hrl. simpl. munfold.
  unfold push. simpl. rewrite He. simpl. rewrite Hw. simpl. rewrite Hd. simpl.
  destruct (run_handler func (Some origin) content (args request) kwargs w2).
  unfold admitted_events. simpl. by rewrite <- !app_assoc.
Qed.

(** X19.  When the rate limiter refuses to enter its context, or the
    wait in it fails, the callback raises that error without calling the
    handler; the context is left only if it was entered, and the two spans
    are closed either way. *)
Theorem rate_limiter_failure_skips_handler self func request kwargs st content
    origin st1 e :
  authenticate_stage self request st = (Ok (content, Some origin), st1) →
  origin ≠ [] →
  RATELIMIT self = true →
  (∃ w1, ratelimit_enter origin (world st1) = (Raise e, w1))
  ∨ (∃ w1 w2, ratelimit_enter origin (world st1) = (Ok tt, w1)
              ∧ ratelimit_wait origin w1 = (Raise e, w2)) →
  ∃ st',
    new_func self func request kwargs st = (Raise e, st')
    ∧ trace st' =
        trace st1
        ++ [SetAttribute (text "authenticated_entity") origin;
            SpanEnter (remote_parent_span request (Some origin));
            SpanEnter (local_parent_span request (Some origin));
            RatelimitEnter origin]
        ++ match ratelimit_enter origin (world st1) with
           | (Ok _, _) => [RatelimitWait origin; RatelimitExit origin]
           | (Raise _, _) => []
           end
        ++ [SpanExit (local_parent_span request (Some origin));
            SpanExit (remote_parent_span request (Some origin))].
Proof.
  intros Hauth Hne Hrl Hcase. rewrite new_func_run, Hauth.
  assert (truthy (Some origin) = true) as Ht by by destruct origin.
  unfold handler_stage, with_ratelimit, invoke. rewrite Ht, Hrl. simpl. munfold.
  unfold push. simpl.
  destruct Hcase as [(w1 & He) | (w1 & w2 & He & Hw)]; rewrite He; simpl.
  - eexists. split; [done|]. simpl. by rewrite <- !app_assoc.
  - rewrite Hw. simpl. eexists. split; [done|]. simpl. by rewrite <- !app_assoc.
Qed.

Lemma count_app (p : event → bool) l1 l2 :
  length (List.filter p (l1 ++ l2))
  = (length (List.filter p l1) + length (List.filter p l2))%nat.
Proof. by rewrite List.filter_app, length_app. Qed.

Lemma count_none (p : event → bool) l :
  Forall (fun e => handler_stage_event e = false) l →
  (∀ e, p e = true → handler_stage_event e = true) →
  length (List.filter p l) = 0%nat.
Proof.
  intros Hl Hp. induction Hl as [|e l He _ IH]; [done|]. simpl.
  destruct (p e) eqn:Hpe; [|done]. apply Hp in Hpe. congruence.
Qed.

(** X20.  In every run of the callback the handler is called at most
    once, the rate limiter's context is left exactly when the wait in it
    was started, and every call of the handler is for this request: with
    its decoded content and its query arguments, and either for an origin
    that got to the keyring and that the keyring accepted, or for no
    origin on a servlet that does not require authentication. *)
Theorem handler_called_only_when_authorised self func request kwargs st :
  ∃ r st' events,
    new_func self func request kwargs st = (r, st')
    ∧ trace st' = trace st ++ events
    ∧ (handler_calls events ≤ 1)%nat
    ∧ length (List.filter is_ratelimit_exit events)
      = length (List.filter is_ratelimit_wait events)
    ∧ ∀ origin content query kw,
        CallHandler origin content query kw ∈ events →
        request_content request = Ok content
        ∧ query = args request ∧ kw = kwargs
        ∧ match origin with
          | Some o =>
              ∃ json_request w1,
                reaches_keyring (authenticator self) request content o
                  json_request
                ∧ verify_json_for_server o json_request (time_msec (world st))
                    (world st) = (Ok tt, w1)
          | None => REQUIRE_AUTH self = false
          end.
Proof.
  rewrite new_func_run.
  destruct (authenticate_stage self request st) as [[[c o]|e] st1] eqn:Hauth.
  2:{ destruct (authenticate_stage_no_handler_call _ _ _ _ _ Hauth)
        as (ev & Htr & Hev).
      exists (Raise e), st1, ev. split; [done|]. split; [done|].
      unfold handler_calls. rewrite !(count_none _ _ Hev) by (intros []; done).
      split; [lia|]. split; [done|].
      intros ???? Hin. rewrite Forall_forall in Hev. by apply Hev in Hin. }
  destruct (authenticate_stage_no_handler_call _ _ _ _ _ Hauth)
    as (ev & Htr & Hev).
  destruct (authenticate_stage_Ok _ _ _ _ _ _ Hauth) as [Hc Ho].
  destruct (handler_stage self func request kwargs c o _) as [r st2] eqn:Hrun.
  destruct (handler_stage_shape _ _ _ _ _ _ _ _ _ Hrun) as (events & Ht2 & Hshape).
  eexists r, _,
    (ev ++ [SetAttribute (text "authenticated_entity") (str_of o);
            SpanEnter (remote_parent_span request o);
            SpanEnter (local_parent_span request o)]
     ++ events
     ++ [SpanExit (local_parent_span request o);
         SpanExit (remote_parent_span request o)]).
  split; [done|]. split.
  { simpl. rewrite Ht2. simpl. rewrite Htr. by rewrite <- !app_assoc. }
  unfold handler_calls. rewrite !count_app.
  rewrite !(count_none _ _ Hev) by (intros []; done).
  assert (∀ origin content query kw,
            CallHandler origin content query kw ∈ events →
            origin = o ∧ content = c ∧ query = args request ∧ kw = kwargs)
    as Hcalls.
  { intros ???? Hin.
    destruct Hshape as [-> | (o' & -> & Hs)].
    - apply elem_of_cons in Hin as [Hin | Hin]; [|by apply elem_of_nil in Hin].
      by injection Hin as -> -> -> ->.
    - repeat (apply elem_of_cons in Hs as [-> | Hs]);
        [| | |by apply elem_of_nil in Hs];
        repeat (apply elem_of_cons in Hin as [Hin | Hin]; [try discriminate|]);
        try (by apply elem_of_nil in Hin).
      by injection Hin as -> -> -> ->. }
  split; [|split].
  - destruct Hshape as [-> | (o' & -> & Hs)]; [simpl; lia|].
    repeat (apply elem_of_cons in Hs as [-> | Hs]); simpl; try lia.
    by apply elem_of_nil in Hs.
  - destruct Hshape as [-> | (o' & -> & Hs)]; [done|].
    repeat (apply elem_of_cons in Hs as [-> | Hs]); simpl; try done.
    by apply elem_of_nil in Hs.
  - intros origin content query kw Hin.
    assert (CallHandler origin content query kw ∈ events) as Hin'.
    { rewrite !elem_of_app in Hin.
      destruct Hin as [Hin | [Hin | [Hin | Hin]]]; [| |done|].
      - rewrite Forall_forall in Hev. by apply Hev in Hin.
      - repeat (apply elem_of_cons in Hin as [Hin | Hin]; [discriminate|]).
        by apply elem_of_nil in Hin.
      - repeat (apply elem_of_cons in Hin as [Hin | Hin]; [discriminate|]).
        by apply elem_of_nil in Hin. }
    destruct (Hcalls _ _ _ _ Hin') as (-> & -> & -> & ->). done.
Qed.

(** *** Registration, further *)

(** X21.  [register] is not atomic: when the pattern compiles and the
    first cancellable handler comes after handlers that are not, the
    routes of those stay registered although [register] raises, and the
    error names that first cancellable method. *)
Theorem register_stops_at_first_cancellable self server before m code after :
  re_valid (anchored_pattern self) = true →
  implemented self = before ++ (m, code) :: after →
  Forall (fun mh => cancellable mh.2 = false) before →
  cancellable code = true →
  register self server
  = (Raise (Exception (cancellable_message self m)),
     server ++ (route_of self <$> before)).
Proof.
  unfold register, re_compile, implemented. fold (anchored_pattern self).
  intros -> Himpl Hbefore Hc.
  generalize dependent server. revert before Himpl Hbefore.
  generalize ["GET"; "PUT"; "POST"]%string as methods.
  induction methods as [|m0 rest IH]; intros before Himpl Hbefore server.
  { by destruct before. }
  simpl in Himpl. cbn [register_methods].
  destruct (getattr_on self m0) as [code0|] eqn:Hg; simpl in Himpl.
  2:{ by apply IH. }
  destruct before as [|[m1 c1] before]; simpl in Himpl.
  - injection Himpl as -> -> _. rewrite Hc. simpl. by rewrite app_nil_r.
  - injection Himpl as -> -> Himpl. inversion Hbefore as [|?? Hc1 Hb]; subst.
    simpl in Hc1. rewrite Hc1.
    rewrite (IH before Himpl Hb). simpl. by rewrite <- app_assoc.
Qed.

(** X22.  Whatever [register] does, the routes already on the server
    stay where they are, and what it adds is an initial part of the routes
    of the implemented methods: all of them when it returns, and, when
    the pattern compiles, not all of them when it raises.  When the
    pattern does not compile it raises [re.error] and adds nothing. *)
Theorem register_extends_server self server :
  ∃ r added,
    register self server = (r, server ++ added)
    ∧ added `prefix_of` (route_of self <$> implemented self)
    ∧ (is_raise r = false → added = route_of self <$> implemented self)
    ∧ (re_valid (anchored_pattern self) = true →
       added = route_of self <$> implemented self → is_raise r = false)
    ∧ (re_valid (anchored_pattern self) = false → r = Raise re_error ∧ added = []).
Proof.
  unfold register, re_compile, implemented. fold (anchored_pattern self).
  destruct (re_valid (anchored_pattern self)).
  2:{ exists (Raise re_error), []. rewrite app_nil_r. split; [done|].
      split; [apply prefix_nil|]. split; [discriminate|]. by split. }
  enough (∀ methods server,
    ∃ r added,
      register_methods self (Compiled (anchored_pattern self)) methods server
      = (r, server ++ added)
      ∧ added `prefix_of`
          (route_of self <$> omap (fun m => pair m <$> getattr_on self m) methods)
      ∧ (is_raise r = false →
         added = route_of self
                 <$> omap (fun m => pair m <$> getattr_on self m) methods)
      ∧ (is_raise r = true →
         (length added
          < length (omap (fun m => pair m <$> getattr_on self m) methods))%nat))
    as Hall.
  { destruct (Hall ["GET"; "PUT"; "POST"]%string server)
      as (r & added & Hr & Hp & Hfull & Hshort).
    exists r, added. split; [done|]. split; [done|]. split; [done|].
    split; [|discriminate]. intros _ Hadded.
    destruct (is_raise r) eqn:Hraise; [|done].
    specialize (Hshort eq_refl). rewrite Hadded, length_fmap in Hshort. lia. }
  clear server. induction methods as [|m0 rest IH]; intros server.
  { exists (Ok tt), []. rewrite app_nil_r. done. }
  cbn [register_methods omap list_omap].
  destruct (getattr_on self m0) as [code0|] eqn:Hg; simpl.
  2:{ apply IH. }
  destruct (cancellable code0).
  { exists (Raise (Exception (cancellable_message self m0))), [].
    rewrite app_nil_r. split; [done|]. split; [apply prefix_nil|].
    split; [discriminate|]. intros _. simpl. lia. }
  match goal with
  | |- context [register_methods _ _ _ (server ++ [?x])] =>
      destruct (IH (server ++ [x])) as (r & added & Hr & Hp & Hfull & Hshort);
      exists r, (x :: added)
  end.
  rewrite Hr, <- app_assoc. split; [done|]. split; [by apply prefix_cons|].
  split.
  - intros Hok. by rewrite (Hfull Hok).
  - intros Hraise. specialize (Hshort Hraise). simpl. lia.
Qed.
End servlet_more.

(** ** Closed instances *)

Import Example.

(** A header without [sig] is unparsable and raises the 400 error. *)
Lemma parse_auth_header_malformed_witness :
  unparsable (octets "X-Matrix origin=a.org,key=k")
  ∧ _parse_auth_header (octets "X-Matrix origin=a.org,key=k") = Raise malformed_header.
Proof.
  assert (unparsable (octets "X-Matrix origin=a.org,key=k")) as Hu.
  { eapply (missing_parameter _ _ (text "sig")).
    - vm_compute. reflexivity.
    - apply (bool_decide_unpack _). vm_compute. exact I.
    - vm_compute. reflexivity. }
  split; [exact Hu|].
  exact (proj1 (parse_auth_header_malformed _) Hu).
Defined.

(** C6 as stated fails: a key that opens with a double quote and does not
    close it is badly quoted, yet the header parses, the key losing its last
    character. *)
Lemma unterminated_quote_counterexample :
  ∃ param_dict raw,
    header_params unterminated_quote_header = Ok param_dict
    ∧ param_dict !! text "key" = Some raw
    ∧ well_quoted raw = false
    ∧ _parse_auth_header unterminated_quote_header
      = Ok (text "a.org", text "ab", text "s", None).
Proof.
  eexists _, _. split; [vm_compute; reflexivity|].
  split; [vm_compute; reflexivity|]. split; vm_compute; reflexivity.
Qed.

(** The scenario header, every value quoted, parses to the bare values. *)
Lemma quoted_values_round_trip_witness :
  _parse_auth_header scenario_header
  = Ok (text "example.org", text "ed25519:1", text "abcd", None).
Proof.
  apply (quoted_values_round_trip scenario_header
           (text "example.org") (text "ed25519:1") (text "abcd") None
           (quote escape_specials (text "example.org"))
           (quote escape_specials (text "ed25519:1"))
           (quote escape_specials (text "abcd")) None).
  - by apply written_quoted.
  - by apply written_quoted.
  - by apply written_quoted.
  - constructor.
  - vm_compute. reflexivity.
  - vm_compute. reflexivity.
  - vm_compute. reflexivity.
  - reflexivity.
  - vm_compute. reflexivity.
  - vm_compute. reflexivity.
Defined.

(** C7 as stated fails: a quoted key holding a comma is split at the comma
    before the quotes are read, and the header is refused. *)
Lemma quoted_comma_counterexample :
  decode_utf8 quoted_comma_header
    = Ok (x_matrix_header (text "a.org") (quote escape_specials (text "a,b"))
            (text "s") None)
  ∧ parse_and_validate_server_name (text "a.org") = Ok tt
  ∧ _parse_auth_header quoted_comma_header = Raise malformed_header.
Proof. vm_compute. done.
Qed.

(** A header naming the local server as destination. *)
Lemma destination_returned_unvalidated_witness :
  ∃ param_dict,
    header_params (octets "X-Matrix origin=a.org,key=k,sig=s,destination=my.server")
      = Ok param_dict
    ∧ Some (text "my.server") = strip_quotes <$> param_dict !! text "destination"
    ∧ (∃ raw, param_dict !! text "origin" = Some raw ∧ text "a.org" = strip_quotes raw)
    ∧ parse_and_validate_server_name (text "a.org") = Ok tt.
Proof.
  apply (destination_returned_unvalidated
           (octets "X-Matrix origin=a.org,key=k,sig=s,destination=my.server")
           (text "a.org") (text "k") (text "s") (Some (text "my.server"))).
  vm_compute. reflexivity.
Defined.

(** C9 as stated fails: [!!!] is no server name, yet it is returned as the
    destination of a successful parse. *)
Lemma invalid_destination_counterexample :
  _parse_auth_header (octets "X-Matrix origin=a.org,key=k,sig=s,destination=!!!")
    = Ok (text "a.org", text "k", text "s", Some (text "!!!"))
  ∧ parse_and_validate_server_name (text "!!!") = Raise ValueError.
Proof. vm_compute. done.
Qed.



(** A single header with a foreign destination. *)
Lemma destination_mismatch_rejected_witness :
  ∃ e st',
    authenticate_request (my_server None)
      (get_request [wrong_destination_header]) None (initial quiet) = (Raise e, st')
    ∧ st' = initial quiet
    ∧ keyring_calls (trace st') = keyring_calls (trace (initial quiet))
    ∧ e ∈ [UnicodeDecodeError; malformed_header; destination_mismatch]
    ∧ (is_raise (decode_ascii (method (get_request [wrong_destination_header]))) = false →
       is_raise (decode_ascii (uri (get_request [wrong_destination_header]))) = false →
       Forall (fun a => entry_passes (my_server None) a = true) [] →
       e = destination_mismatch).
Proof.
  apply (destination_mismatch_rejected (my_server None)
           (get_request [wrong_destination_header]) None (initial quiet)
           [] (octets wrong_destination_header) []
           (text "evil.org") (text "k") (text "s") (text "wrong.server")).
  - reflexivity.
  - vm_compute. reflexivity.
  - vm_compute. reflexivity.
  - vm_compute. discriminate.
Defined.

(** C2 as stated fails: the request holds an entry with a foreign
    destination, but an entry before it lacks [sig] and the 400 malformed
    header error is raised first. *)
Lemma malformed_entry_first_counterexample :
  _parse_auth_header (octets wrong_destination_header)
    = Ok (text "evil.org", text "k", text "s", Some (text "wrong.server"))
  ∧ text "wrong.server" ≠ server_name (my_server None)
  ∧ authenticate_request (my_server None)
      (get_request ["X-Matrix origin=evil.org,key=k"; wrong_destination_header])
      None (initial quiet)
    = (Raise malformed_header, initial quiet).
Proof.
  split; [vm_compute; reflexivity|]. split; [vm_compute; discriminate|].
  vm_compute. reflexivity.
Qed.

(** A [Basic] header and no whitelist. *)
Lemma no_x_matrix_entry_witness :
  authenticate_request (my_server None) (get_request ["Basic abc"]) None
    (initial quiet)
  = (Raise missing_authorization, initial quiet).
Proof.
  apply (no_x_matrix_entry (my_server None) (get_request ["Basic abc"]) None
           (initial quiet) (text "GET") (text "/_matrix/federation/v1/version")
           [octets "Basic abc"]).
  - vm_compute. reflexivity.
  - vm_compute. reflexivity.
  - reflexivity.
  - discriminate.
  - constructor; [vm_compute; reflexivity | constructor].
Defined.

(** C8 as stated fails: with a whitelist configured a request with only a
    [Basic] header is refused with [FederationDeniedError(None)]. *)
Lemma whitelist_without_x_matrix_counterexample :
  startswith (octets "X-Matrix") (octets "Basic abc") = false
  ∧ authenticate_request (my_server (Some [text "other.org"]))
      (get_request ["Basic abc"]) None (initial quiet)
    = (Raise (FederationDeniedError None), initial quiet).
Proof. split; vm_compute; reflexivity.
Qed.

(** The origin comes back: the task runs at once, the store holds the
    zero retry state and the notifier was told.  With the store out of
    order the request is authenticated all the same, and nothing was
    written. *)
Lemma retry_timings_reset_in_background_witness :
  (∃ st',
     authenticate_request (my_server (Some [text "example.org"]))
       (get_request [plain_header]) None (initial came_back)
     = (Ok (text "example.org"), st')
     ∧ requester st' = Some (text "example.org")
     ∧ lookup_store (text "example.org") (store (world st'))
       = Some {| failure_ts := None; retry_last_ts := 0; retry_interval := 0 |}
     ∧ notified (world st') = [text "example.org"])
  ∧ ∃ st',
      authenticate_request (my_server (Some [text "example.org"]))
        (get_request [plain_header]) None (initial (was_down false))
      = (Ok (text "example.org"), st')
      ∧ requester st' = Some (text "example.org")
      ∧ world st' = was_down false.
Proof.
  split.
  - destruct (retry_timings_reset_in_background
                (my_server (Some [text "example.org"]))
                (get_request [plain_header]) None (initial came_back)
                (text "GET") (text "/_matrix/federation/v1/version")
                [octets plain_header] (text "example.org")
                (add_signature (text "example.org") (text "ed25519:1")
                   (text "abcd")
                   (initial_json_request (my_server (Some [text "example.org"]))
                      (text "GET") (text "/_matrix/federation/v1/version") None))
                came_back came_back
                {| failure_ts := Some 1; retry_last_ts := 5;
                   retry_interval := 60000 |})
      as [(st' & Hrun & Hreq & Hworld & _) _].
    + vm_compute. reflexivity.
    + vm_compute. reflexivity.
    + reflexivity.
    + vm_compute. reflexivity.
    + intros whitelist [= <-]. apply (bool_decide_unpack _). vm_compute. exact I.
    + vm_compute. reflexivity.
    + vm_compute. reflexivity.
    + vm_compute. discriminate.
    + exists st'. split; [exact Hrun|]. split; [exact Hreq|].
      rewrite Hworld. split; vm_compute; reflexivity.
  - destruct (retry_timings_reset_in_background
                (my_server (Some [text "example.org"]))
                (get_request [plain_header]) None (initial (was_down false))
                (text "GET") (text "/_matrix/federation/v1/version")
                [octets plain_header] (text "example.org")
                (add_signature (text "example.org") (text "ed25519:1")
                   (text "abcd")
                   (initial_json_request (my_server (Some [text "example.org"]))
                      (text "GET") (text "/_matrix/federation/v1/version") None))
                (was_down false) (was_down false)
                {| failure_ts := Some 1; retry_last_ts := 5;
                   retry_interval := 60000 |})
      as [(st' & Hrun & Hreq & Hworld & _) _].
    + vm_compute. reflexivity.
    + vm_compute. reflexivity.
    + reflexivity.
    + vm_compute. reflexivity.
    + intros whitelist [= <-]. apply (bool_decide_unpack _). vm_compute. exact I.
    + vm_compute. reflexivity.
    + vm_compute. reflexivity.
    + vm_compute. discriminate.
    + exists st'. split; [exact Hrun|]. split; [exact Hreq|].
      rewrite Hworld. vm_compute. reflexivity.
Defined.

(** A handler that raises: the exception leaves the callback and both spans
    are closed, the local one first. *)
Example raising_handler_closes_both_spans :
  let request := get_request [plain_header] in
  let origin := Some (text "example.org") in
  let run := new_func (servlet None) failing request [] (initial quiet) in
  run.1 = Raise (ExternalError 500)
  ∧ is_recording (remote_parent_span request origin) = true
  ∧ List.filter is_span_event (trace run.2)
    = [SpanEnter authenticate_span; SpanExit authenticate_span;
       SpanEnter (remote_parent_span request origin);
       SpanEnter (local_parent_span request origin);
       SpanExit (local_parent_span request origin);
       SpanExit (remote_parent_span request origin)]
  ∧ handler_calls (trace run.2) = 1%nat.
Proof. vm_compute. done. Qed.

(** The peer is gone when admission is granted. *)
Lemma disconnected_client_skips_handler_witness :
  ∃ st',
    new_func (servlet None) echo (get_request [plain_header]) []
      (initial (was_down true))
    = (Ok None, st')
    ∧ handler_calls (trace st') = handler_calls (trace (initial (was_down true))).
Proof.
  edestruct (disconnected_client_skips_handler (servlet None) echo
               (get_request [plain_header]) [] (initial (was_down true)) None
               (text "example.org"))
    as (st' & Hrun & _ & Hcalls & _).
  - vm_compute. reflexivity.
  - discriminate.
  - reflexivity.
  - vm_compute. reflexivity.
  - vm_compute. reflexivity.
  - vm_compute. reflexivity.
  - exists st'. split; [exact Hrun | exact Hcalls].
Defined.

(** A servlet with a plain [on_GET], and one whose [on_PUT] is cancellable. *)
Lemma register_binds_or_rejects_witness :
  register (servlet None) []
  = (Ok tt,
     [{| route_method := "GET";
         route_patterns := [Compiled (text "^/_matrix/federation/v1/version$")];
         route_callback := _wrap (servlet None) echo;
         route_servlet_classname := "FederationVersionServlet" |}])
  ∧ ∃ e server', register cancellable_servlet [] = (Raise e, server').
Proof.
  split.
  - apply (proj2 (register_binds_or_rejects (servlet None) [])).
    + intros m code [Hin Hg]%elem_of_implemented.
      vm_compute in Hin.
      repeat (apply elem_of_cons in Hin as [->|Hin]);
        try (by apply elem_of_nil in Hin); vm_compute in Hg;
        inversion Hg; reflexivity.
    + reflexivity.
  - destruct (proj1 (register_binds_or_rejects cancellable_servlet []))
      as (e & server' & Hr & _).
    + exists "PUT"%string, cancellable_echo. split; [|reflexivity].
      apply elem_of_implemented. split; [|reflexivity].
      apply (bool_decide_unpack _). vm_compute. exact I.
    + by exists e, server'.
Defined.

(** ** Closed instances of the further properties *)

(** A value holding a comma, a space, a quote and a backslash. *)
Lemma strip_quotes_undoes_quote_witness :
  strip_quotes (quote escape_specials (text "a,b c\d" ++ [QUOTE]))
  = text "a,b c\d" ++ [QUOTE].
Proof.
  apply (strip_quotes_undoes_quote escape_specials (text "a,b c\d" ++ [QUOTE]));
    reflexivity.
Defined.

(** A misspelt scheme, three spaces and trailing text change nothing. *)
Lemma parse_reads_second_field_witness :
  _parse_auth_header sloppy_header = _parse_auth_header (octets plain_header).
Proof.
  apply (parse_reads_second_field sloppy_header (octets plain_header)
           (text "X-MatrixFoo") (text "X-Matrix") 2 0
           (text "origin=example.org,key=ed25519:1,sig=abcd")
           (Some (text "junk,more")) None).
  - forall_ne.
  - forall_ne.
  - forall_ne.
  - discriminate.
  - vm_compute. reflexivity.
  - vm_compute. reflexivity.
Defined.

Lemma parsed_fields_hold_no_separator_witness :
  no_separator (text "example.org") = true
  ∧ no_separator (text "ed25519:1") = true
  ∧ no_separator (text "abcd") = true
  ∧ from_option no_separator true None = true.
Proof.
  apply (parsed_fields_hold_no_separator scenario_header
           (text "example.org") (text "ed25519:1") (text "abcd") None).
  vm_compute. reflexivity.
Defined.

(** No header at all, with a whitelist configured. *)
Lemma missing_authorization_header_witness :
  authenticate_request (my_server (Some [text "other.org"])) no_headers None
    (initial quiet)
  = (Raise missing_authorization, initial quiet)
  ∧ is_NoAuthenticationError missing_authorization = true.
Proof.
  apply (missing_authorization_header (my_server (Some [text "other.org"]))
           no_headers None (initial quiet)).
  - vm_compute. reflexivity.
  - vm_compute. reflexivity.
  - left. reflexivity.
Defined.

(** [first.org] is not among the servers whose keys are trusted. *)
Lemma verification_failure_propagates_witness :
  ∃ st',
    authenticate_request (my_server None)
      (get_request ["X-Matrix origin=first.org,key=k1,sig=s1"]) None
      (initial quiet)
    = (Raise (ExternalError 403), st')
    ∧ requester st' = None ∧ background st' = [].
Proof.
  eexists. split.
  - apply (verification_failure_propagates (my_server None)
             (get_request ["X-Matrix origin=first.org,key=k1,sig=s1"]) None
             (initial quiet) (text "first.org")
             (add_signature (text "first.org") (text "k1") (text "s1")
                (initial_json_request (my_server None) (text "GET")
                   (text "/_matrix/federation/v1/version") None))
             (ExternalError 403) quiet).
    + exists (text "GET"), (text "/_matrix/federation/v1/version"),
        [octets "X-Matrix origin=first.org,key=k1,sig=s1"].
      split; [vm_compute; reflexivity|]. split; [vm_compute; reflexivity|].
      split; [reflexivity|]. split; [vm_compute; reflexivity|]. discriminate.
    + vm_compute. reflexivity.
  - split; reflexivity.
Defined.

(** The scenario of the specification with nothing on record. *)
Lemma no_reset_without_failure_record_witness :
  ∃ st',
    authenticate_request (my_server None) (get_request [plain_header]) None
      (initial quiet)
    = (Ok (text "example.org"), st')
    ∧ requester st' = Some (text "example.org") ∧ background st' = [].
Proof.
  eexists. split.
  - apply (no_reset_without_failure_record (my_server None)
             (get_request [plain_header]) None (initial quiet)
             (text "example.org")
             (add_signature (text "example.org") (text "ed25519:1") (text "abcd")
                (initial_json_request (my_server None) (text "GET")
                   (text "/_matrix/federation/v1/version") None))
             quiet None quiet).
    + exists (text "GET"), (text "/_matrix/federation/v1/version"),
        [octets plain_header].
      split; [vm_compute; reflexivity|]. split; [vm_compute; reflexivity|].
      split; [reflexivity|]. split; [vm_compute; reflexivity|]. discriminate.
    + vm_compute. reflexivity.
    + vm_compute. reflexivity.
    + discriminate.
  - split; reflexivity.
Defined.

(** The store is down when the retry timings are read. *)
Lemma store_failure_after_verification_witness :
  ∃ st',
    authenticate_request (my_server None) (get_request [plain_header]) None
      (strict_initial true false)
    = (Raise (ExternalError 500), st')
    ∧ requester st' = Some (text "example.org").
Proof.
  eexists. split.
  - apply (store_failure_after_verification (my_server None)
             (get_request [plain_header]) None (strict_initial true false)
             (text "example.org")
             (add_signature (text "example.org") (text "ed25519:1") (text "abcd")
                (initial_json_request (my_server None) (text "GET")
                   (text "/_matrix/federation/v1/version") None))
             (world (strict_initial true false)) (ExternalError 500)
             (world (strict_initial true false))).
    + exists (text "GET"), (text "/_matrix/federation/v1/version"),
        [octets plain_header].
      split; [vm_compute; reflexivity|]. split; [vm_compute; reflexivity|].
      split; [reflexivity|]. split; [vm_compute; reflexivity|]. discriminate.
    + vm_compute. reflexivity.
    + vm_compute. reflexivity.
  - reflexivity.
Defined.

(** Two origins, and one origin and key given twice: the last origin is
    kept, the other origin's signature is still there, and of the two
    signatures under the same origin and key the second is left. *)
Lemma last_origin_wins_witness :
  ∃ json_request,
    auth_header_loop (my_server None) (octets <$> repeated_key)
      (None, initial_json_request (my_server None) (text "GET") (text "/") None)
    = Ok (Some (text "example.org"), json_request)
    ∧ Some (text "example.org") = last_origin (octets <$> repeated_key) None
    ∧ signature_of json_request (text "first.org") (text "k1")
      = Some (text "s1")
    ∧ signature_of json_request (text "example.org") (text "k")
      = Some (text "SECOND").
Proof.
  eexists. split; [vm_compute; reflexivity|].
  edestruct (last_origin_wins (my_server None) (octets <$> repeated_key)
               (None, initial_json_request (my_server None) (text "GET")
                        (text "/") None))
    as (Ho & Hsig & _); [vm_compute; reflexivity|].
  split; [exact Ho|].
  rewrite !Hsig. split; vm_compute; reflexivity.
Defined.

(** The main process repairs the retry timings without replication. *)
Lemma main_process_never_replicates_witness :
  ∃ r st' events,
    authenticate_request (Authenticator__init__ main_process)
      (get_request [plain_header]) None (initial (was_down false)) = (r, st')
    ∧ trace st' = trace (initial (was_down false)) ++ events
    ∧ Forall (fun e => is_replication_send e = false) events.
Proof.
  apply (main_process_never_replicates main_process
           (get_request [plain_header]) None (initial (was_down false))).
  reflexivity.
Defined.

(** A PUT whose body the decoder refuses. *)
Lemma undecodable_body_stops_request_witness :
  new_func strict_servlet strict_echo empty_put [] (strict_initial false false)
  = (Raise (ExternalError 400), strict_initial false false).
Proof.
  apply (undecodable_body_stops_request strict_servlet strict_echo empty_put []
           (strict_initial false false) (ExternalError 400)).
  vm_compute. reflexivity.
Defined.

(** A foreign destination on a servlet that requires authentication. *)
Lemma authentication_error_propagates_witness :
  new_func (servlet None) echo (get_request [wrong_destination_header]) []
    (initial quiet)
  = (Raise destination_mismatch,
     push (SpanExit authenticate_span)
       (push (SpanEnter authenticate_span) (initial quiet))).
Proof.
  apply (authentication_error_propagates (servlet None) echo
           (get_request [wrong_destination_header]) [] (initial quiet) None
           destination_mismatch
           (push (SpanEnter authenticate_span) (initial quiet))).
  - vm_compute. reflexivity.
  - vm_compute. reflexivity.
  - left. reflexivity.
Defined.

(** A request without headers on a servlet that asks for no
    authentication. *)
Lemma unauthenticated_request_served_witness :
  ∃ st',
    new_func open_servlet echo no_headers [] (initial quiet)
    = (Ok (Some (200, JString (text "None"))), st')
    ∧ handler_calls (trace st') = 1%nat.
Proof.
  destruct (unauthenticated_request_served open_servlet echo no_headers []
              (initial quiet) None missing_authorization
              (push (SpanEnter authenticate_span) (initial quiet)))
    as [Hrun _].
  - vm_compute. reflexivity.
  - vm_compute. reflexivity.
  - reflexivity.
  - reflexivity.
  - eexists. split; [exact Hrun|]. vm_compute. reflexivity.
Defined.

(** The scenario of the specification on a servlet without rate limiting. *)
Lemma unlimited_request_runs_handler_witness :
  ∃ st',
    new_func unlimited_servlet echo (get_request [plain_header]) []
      (initial quiet)
    = (Ok (Some (200, JString (text "example.org"))), st')
    ∧ List.filter is_ratelimit_wait (trace st') = [].
Proof.
  eexists. split.
  - erewrite (unlimited_request_runs_handler unlimited_servlet echo
                (get_request [plain_header]) [] (initial quiet) None
                (text "example.org")).
    + reflexivity.
    + vm_compute. reflexivity.
    + left. reflexivity.
  - vm_compute. reflexivity.
Defined.

(** The scenario of the specification on a rate-limited servlet. *)
Lemma admitted_request_runs_handler_witness :
  ∃ st',
    new_func (servlet None) echo (get_request [plain_header]) [] (initial quiet)
    = (Ok (Some (200, JString (text "example.org"))), st')
    ∧ handler_calls (trace st') = 1%nat.
Proof.
  eexists. split.
  - erewrite (admitted_request_runs_handler (servlet None) echo
                (get_request [plain_header]) [] (initial quiet) None
                (text "example.org") _ quiet quiet).
    + reflexivity.
    + vm_compute. reflexivity.
    + discriminate.
    + reflexivity.
    + vm_compute. reflexivity.
    + vm_compute. reflexivity.
    + reflexivity.
  - vm_compute. reflexivity.
Defined.

(** The rate limiter refuses while the request waits. *)
Lemma rate_limiter_failure_skips_handler_witness :
  ∃ st',
    new_func strict_servlet strict_echo (get_request [plain_header]) []
      (strict_initial false true)
    = (Raise (ExternalError 429), st').
Proof.
  epose proof (rate_limiter_failure_skips_handler strict_servlet strict_echo
                 (get_request [plain_header]) [] (strict_initial false true) None
                 (text "example.org") _ (ExternalError 429)) as Hskip.
  edestruct Hskip as (st' & Hrun & _).
  - vm_compute. reflexivity.
  - discriminate.
  - reflexivity.
  - right. eexists _, _. split; vm_compute; reflexivity.
  - exists st'. exact Hrun.
Defined.

(** [on_GET] is registered before the cancellable [on_PUT] is met. *)
Lemma register_stops_at_first_cancellable_witness :
  register cancellable_servlet []
  = (Raise (Exception (cancellable_message cancellable_servlet "PUT")),
     [] ++ (route_of cancellable_servlet <$> [("GET"%string, echo)])).
Proof.
  apply (register_stops_at_first_cancellable cancellable_servlet []
           [("GET"%string, echo)] "PUT"%string cancellable_echo []).
  - reflexivity.
  - reflexivity.
  - by repeat constructor.
  - reflexivity.
Defined.
